(** * slice_performance: [ProcessWords] and [ProcessWordsFaster]

    A shallow embedding of [words.go].  The two functions build a
    [[]Word] with [append]; they differ only in the capacity given to
    [make].  Slices are modelled as Go has them: a header (pointer,
    length, capacity) into a backing array that lives in a heap, with
    [append] growing the array when the capacity is exceeded.  Strings
    are byte sequences, and [process] is [strings.ToUpper] as the Go
    standard library implements it, over the UTF-8 decoder and encoder of
    [unicode/utf8]. *)

From Stdlib Require Import ZArith Lia Ascii.
From stdpp Require Import base list strings.

Local Open Scope Z_scope.

(** ** Bytes and strings

    A Go [string] is an immutable sequence of bytes: Rocq's [string]. *)

Definition byte_val (b : ascii) : Z := Z.of_N (N_of_ascii b).

(** The conversion [byte(x)] keeps the low eight bits. *)
Definition byte_of (x : Z) : ascii := ascii_of_N (Z.to_N (x mod 256)).

(** [uint32(r)] and [int32(x)]: wrap-around of 32-bit conversions. *)
Definition uint32 (x : Z) : Z := x mod 2 ^ 32.
Definition int32 (x : Z) : Z := (x + 2 ^ 31) mod 2 ^ 32 - 2 ^ 31.

(** [s[n:]] and [s[:n]] for [n <= len(s)]. *)
Fixpoint slice_from (s : string) (n : nat) {struct n} : string :=
  match n, s with
  | O, _ => s
  | S n', String _ s' => slice_from s' n'
  | S _, EmptyString => EmptyString
  end.

Fixpoint slice_to (s : string) (n : nat) {struct n} : string :=
  match n, s with
  | O, _ => EmptyString
  | S n', String b s' => String b (slice_to s' n')
  | S _, EmptyString => EmptyString
  end.

(** [s[i]], with 0 standing for a byte the caller has checked to exist. *)
Definition byte_at (s : string) (i : nat) : Z :=
  match String.get i s with
  | Some b => byte_val b
  | None => 0
  end.

(** ** Package [unicode/utf8] *)

Module utf8.

Definition RuneError : Z := 0xFFFD.
Definition RuneSelf : Z := 0x80.
Definition MaxRune : Z := 0x10FFFF.
Definition UTFMax : Z := 4.

Definition surrogateMin : Z := 0xD800.
Definition surrogateMax : Z := 0xDFFF.

Definition t2 : Z := 0xC0.
Definition t3 : Z := 0xE0.
Definition t4 : Z := 0xF0.
Definition tx : Z := 0x80.

Definition maskx : Z := 0x3F.
Definition mask2 : Z := 0x1F.
Definition mask3 : Z := 0x0F.
Definition mask4 : Z := 0x07.

Definition rune1Max : Z := 0x7F.
Definition rune2Max : Z := 0x7FF.
Definition rune3Max : Z := 0xFFFF.

Definition locb : Z := 0x80.
Definition hicb : Z := 0xBF.

(** Information about the first byte of an encoding. *)
Definition xx : Z := 0xF1.
Definition as_ : Z := 0xF0.
Definition s1 : Z := 0x02.
Definition s2 : Z := 0x13.
Definition s3 : Z := 0x03.
Definition s4 : Z := 0x23.
Definition s5 : Z := 0x34.
Definition s6 : Z := 0x04.
Definition s7 : Z := 0x44.

(** The table [first[256]], row by row. *)
Definition first (b : Z) : Z :=
  if b <? 0x80 then as_
  else if b <? 0xC2 then xx
  else if b <? 0xE0 then s1
  else if b =? 0xE0 then s2
  else if b <? 0xED then s3
  else if b =? 0xED then s4
  else if b <? 0xF0 then s3
  else if b =? 0xF0 then s5
  else if b <? 0xF4 then s6
  else if b =? 0xF4 then s7
  else xx.

(** [acceptRanges[i]] as the pair [(lo, hi)]; the table has 16 entries,
    the last eleven are zero. *)
Definition acceptRanges (i : Z) : Z * Z :=
  if i =? 0 then (locb, hicb)
  else if i =? 1 then (0xA0, hicb)
  else if i =? 2 then (locb, 0x9F)
  else if i =? 3 then (0x90, hicb)
  else if i =? 4 then (locb, 0x8F)
  else (0, 0).

Definition DecodeRuneInString (s : string) : Z * nat :=
  let n := String.length s in
  if (n <? 1)%nat then (RuneError, 0%nat)
  else
    let s0 := byte_at s 0 in
    let x := first s0 in
    if as_ <=? x then
      let mask := Z.shiftr (int32 (Z.shiftl x 31)) 31 in
      (Z.lor (Z.land s0 (Z.lnot mask)) (Z.land RuneError mask), 1%nat)
    else
      let sz := Z.to_nat (Z.land x 7) in
      let accept := acceptRanges (Z.shiftr x 4) in
      if (n <? sz)%nat then (RuneError, 1%nat)
      else
        let b1 := byte_at s 1 in
        if (b1 <? fst accept) || (snd accept <? b1) then (RuneError, 1%nat)
        else if (sz <=? 2)%nat then
          (Z.lor (Z.shiftl (Z.land s0 mask2) 6) (Z.land b1 maskx), 2%nat)
        else
          let b2 := byte_at s 2 in
          if (b2 <? locb) || (hicb <? b2) then (RuneError, 1%nat)
          else if (sz <=? 3)%nat then
            (Z.lor (Z.lor (Z.shiftl (Z.land s0 mask3) 12)
                          (Z.shiftl (Z.land b1 maskx) 6))
                   (Z.land b2 maskx), 3%nat)
          else
            let b3 := byte_at s 3 in
            if (b3 <? locb) || (hicb <? b3) then (RuneError, 1%nat)
            else
              (Z.lor (Z.lor (Z.lor (Z.shiftl (Z.land s0 mask4) 18)
                                   (Z.shiftl (Z.land b1 maskx) 12))
                            (Z.shiftl (Z.land b2 maskx) 6))
                     (Z.land b3 maskx), 4%nat).

Definition RuneLen (r : Z) : Z :=
  if r <? 0 then -1
  else if r <=? rune1Max then 1
  else if r <=? rune2Max then 2
  else if (surrogateMin <=? r) && (r <=? surrogateMax) then -1
  else if r <=? rune3Max then 3
  else if r <=? MaxRune then 4
  else -1.

(** [EncodeRune(p, r)]: the bytes written to [p]. *)
Definition EncodeRune (r : Z) : string :=
  let i := uint32 r in
  let three (r : Z) :=
    String (byte_of (Z.lor t3 (byte_val (byte_of (Z.shiftr r 12)))))
   (String (byte_of (Z.lor tx (Z.land (byte_val (byte_of (Z.shiftr r 6))) maskx)))
   (String (byte_of (Z.lor tx (Z.land (byte_val (byte_of r)) maskx)))
    EmptyString)) in
  if i <=? rune1Max then String (byte_of r) EmptyString
  else if i <=? rune2Max then
    String (byte_of (Z.lor t2 (byte_val (byte_of (Z.shiftr r 6)))))
   (String (byte_of (Z.lor tx (Z.land (byte_val (byte_of r)) maskx)))
    EmptyString)
  else if (MaxRune <? i) || ((surrogateMin <=? i) && (i <=? surrogateMax))
  then three RuneError
  else if i <=? rune3Max then three r
  else
    String (byte_of (Z.lor t4 (byte_val (byte_of (Z.shiftr r 18)))))
   (String (byte_of (Z.lor tx (Z.land (byte_val (byte_of (Z.shiftr r 12))) maskx)))
   (String (byte_of (Z.lor tx (Z.land (byte_val (byte_of (Z.shiftr r 6))) maskx)))
   (String (byte_of (Z.lor tx (Z.land (byte_val (byte_of r)) maskx)))
    EmptyString))).

End utf8.

(** ** Package [strings]: [Builder] writes, [range] over a string, [Map] *)

Module strings.

(** A [Builder] is the bytes written so far. *)
Definition WriteString (b s : string) : string := b +:+ s.
Definition WriteByte (b : string) (c : ascii) : string := b +:+ String c "".
Definition WriteRune (b : string) (r : Z) : string :=
  if r <? utf8.RuneSelf then b +:+ String (byte_of r) ""
  else b +:+ utf8.EncodeRune r.

(** [for i, c := range s]: the pairs (byte index, rune) in order.  The
    index advances by the width of the decoded rune; [skip] counts the
    bytes of the current rune still to be passed. *)
Fixpoint range_from (s : string) (i skip : nat) : list (nat * Z) :=
  match s with
  | EmptyString => []
  | String _ s' =>
      match skip with
      | S k => range_from s' (S i) k
      | O =>
          let '(c, w) := utf8.DecodeRuneInString s in
          (i, c) :: range_from s' (S i) (w - 1)
      end
  end.

Definition range (s : string) : list (nat * Z) := range_from s 0 0.

(** First loop of [Map]: runs to the first rune that the mapping
    changes or that is an invalid byte, and yields [(i, r, width)]
    there; [None] when the loop ends without [break]. *)
Fixpoint Map_scan (mapping : Z → Z) (s : string) (rs : list (nat * Z))
  : option (nat * Z * Z) :=
  match rs with
  | [] => None
  | (i, c) :: rs' =>
      let r := mapping c in
      if (r =? c) && negb (c =? utf8.RuneError) then Map_scan mapping s rs'
      else if c =? utf8.RuneError then
        let '(c', width) := utf8.DecodeRuneInString (slice_from s i) in
        if negb (width =? 1)%nat && (r =? c') then Map_scan mapping s rs'
        else Some (i, r, Z.of_nat width)
      else Some (i, r, utf8.RuneLen c)
  end.

(** Second loop of [Map]: every remaining rune is mapped and written. *)
Definition Map_write (mapping : Z → Z) (b : string) (rs : list (nat * Z))
  : string :=
  fold_left (λ b ic,
    let r := mapping ic.2 in
    if 0 <=? r then
      if r <? utf8.RuneSelf then WriteByte b (byte_of r) else WriteRune b r
    else b) rs b.

Definition Map (mapping : Z → Z) (s : string) : string :=
  match Map_scan mapping s (range s) with
  | None => s
  | Some (i, r, width) =>
      let b := WriteString "" (slice_to s i) in
      let b := if 0 <=? r then WriteRune b r else b in
      let s := slice_from s (Z.to_nat (Z.of_nat i + width)) in
      Map_write mapping b (range s)
  end.

End strings.

(** ** The heap: backing arrays of slices

    Arrays are allocated at the end of the heap and never freed (the
    collector is not modelled); an address is an index into the heap, so
    the number of allocations of a run is the growth of the heap. *)

Record Word := mkWord { word : string; index : Z }.

Definition zeroWord : Word := mkWord "" 0.

Inductive array :=
  | StringArray (elems : list string)
  | WordArray (elems : list Word).

(** The data pointer of a slice header: an element of an allocated array,
    or [zerobase], what the allocator returns for a size of zero. *)
Inductive pointer :=
  | zerobase
  | element (l : nat) (off : nat).

Record slice := Slice { data : pointer; len : nat; cap : nat }.

(** Computations on the heap; [None] is a run-time panic. *)
Definition M (A : Type) : Type := list array → option (A * list array).

#[global] Instance M_ret : MRet M := λ A x h, Some (x, h).
#[global] Instance M_bind : MBind M := λ A B f m h,
  match m h with
  | Some (x, h') => f x h'
  | None => None
  end.

Definition panic {A} : M A := λ _, None.

Definition mallocgc (a : array) : M nat := λ h, Some (length h, h ++ [a]).

(** [make([]Word, n, c)]: [runtime.makeslice]. *)
Definition make_Word (n c : nat) : M slice :=
  if decide (c < n)%nat then panic
  else if decide (c = 0)%nat then mret (Slice zerobase n c)
  else l ← mallocgc (WordArray (replicate c zeroWord));
       mret (Slice (element l 0) n c).

(** The elements [s[0:len(s)]]. *)
Definition load_Words (s : slice) : M (list Word) := λ h,
  match data s with
  | zerobase => if decide (len s = 0)%nat then Some ([], h) else None
  | element l off =>
      match h !! l with
      | Some (WordArray a) =>
          if decide (off + len s ≤ length a)%nat
          then Some (take (len s) (drop off a), h) else None
      | _ => None
      end
  end.

(** [p[i] = w] *)
Definition store_Word (p : pointer) (i : nat) (w : Word) : M unit := λ h,
  match p with
  | zerobase => None
  | element l off =>
      match h !! l with
      | Some (WordArray a) =>
          if decide (off + i < length a)%nat
          then Some ((), <[l := WordArray (<[(off + i)%nat := w]> a)]> h)
          else None
      | _ => None
      end
  end.

(** [rawWords[i]] *)
Definition index_string (s : slice) (i : nat) : M string := λ h,
  if decide (i < len s)%nat then
    match data s with
    | zerobase => None
    | element l off =>
        match h !! l with
        | Some (StringArray a) => (λ w, (w, h)) <$> a !! (off + i)%nat
        | _ => None
        end
    end
  else None.

(** [for i, w := range rawWords { acc = body(i, w, acc) }]: the length is
    read once, before the first iteration. *)
Fixpoint for_range_from {A} (rawWords : slice) (i n : nat)
    (body : nat → string → A → M A) (acc : A) : M A :=
  match n with
  | O => mret acc
  | S n' =>
      w ← index_string rawWords i;
      acc ← body i w acc;
      for_range_from rawWords (S i) n' body acc
  end.

Definition for_range {A} (rawWords : slice)
    (body : nat → string → A → M A) (acc : A) : M A :=
  for_range_from rawWords 0 (len rawWords) body acc.

(** What a slice holds in a heap. *)
Definition Words_in (h : list array) (s : slice) : option (list Word) :=
  fst <$> load_Words s h.

Definition strings_in (h : list array) (s : slice) : option (list string) :=
  match data s with
  | zerobase => if decide (len s = 0)%nat then Some [] else None
  | element l off =>
      match h !! l with
      | Some (StringArray a) =>
          if decide (off + len s ≤ length a)%nat
          then Some (take (len s) (drop off a)) else None
      | _ => None
      end
  end.

(** ** What a call is observed to do *)

(** The output sequence of a call of [f] on [rawWords] in the heap [h]. *)
Definition output (f : slice → M slice) (rawWords : slice) (h : list array)
  : option (list Word) :=
  match f rawWords h with
  | Some (words, h') => Words_in h' words
  | None => None
  end.

(** The number of arrays a call allocates. *)
Definition allocations {A} (m : M A) (h : list array) : option nat :=
  match m h with
  | Some (_, h') => Some (length h' - length h)%nat
  | None => None
  end.

(** The specification's transform, in its words: for each index [i],
    [Record{uppercase(input[i]), i}]. *)
Definition Transform_spec (uppercase : string → string) (input : list string)
  : list Word :=
  imap (λ i w, mkWord (uppercase w) (Z.of_nat i)) input.

(** The slice [s] holds [out] in a backing array of its own, allocated
    after the first [n0] arrays of the heap. *)
Definition owned (n0 : nat) (h : list array) (s : slice) (out : list Word)
  : Prop :=
  length out = len s ∧ (len s ≤ cap s)%nat ∧
  match data s with
  | zerobase => cap s = 0%nat
  | element l off =>
      off = 0%nat ∧ (n0 ≤ l)%nat ∧
      ∃ a, h !! l = Some (WordArray a) ∧ length a = cap s ∧
           take (len s) a = out
  end.

(** The capacity test of [append] run [n] times without the heap, from a
    slice of length [k] and capacity [c]: the capacity reached and the
    number of times [growslice] was called. *)
Fixpoint appends (growcap : nat → nat → nat) (k c n : nat) : nat * nat :=
  match n with
  | O => (c, 0%nat)
  | S n' =>
      if decide (c < k + 1)%nat then
        let '(c', a) := appends growcap (k + 1)%nat (growcap c (k + 1)%nat) n' in
        (c', S a)
      else appends growcap (k + 1)%nat c n'
  end.

(** A record moved [k] places to the right. *)
Definition shift_index (k : nat) (r : Word) : Word :=
  mkWord (word r) (index r + Z.of_nat k).

(** The bytes of a string, and a string all of whose bytes are ASCII. *)
Definition bytes (s : string) : list ascii := String.list_ascii_of_string s.

Definition ASCII (s : string) : Prop :=
  Forall (λ b, byte_val b < utf8.RuneSelf) (bytes s).

(** The upper case of one ASCII byte: the letters ['a'] to ['z'] lose
    ['a' - 'A'], every other byte stays. *)
Definition upper_byte (c : ascii) : ascii :=
  if (0x61 <=? byte_val c) && (byte_val c <=? 0x7A)
  then byte_of (byte_val c - (0x61 - 0x41)) else c.

Fixpoint map_bytes (f : ascii → ascii) (s : string) : string :=
  match s with
  | EmptyString => EmptyString
  | String c s' => String (f c) (map_bytes f s')
  end.

(** A string in which [range] meets no invalid byte: every rune it yields
    is decoded from a complete encoding. *)
Definition valid_UTF8 (s : string) : Prop :=
  Forall (λ ic, utf8.DecodeRuneInString (slice_from s ic.1)
                ≠ (utf8.RuneError, 1%nat))
         (strings.range s).

(** The runes a [range] loop over the string meets, in order. *)
Definition runes (s : string) : list Z := (strings.range s).*2.

(** A rune that [EncodeRune] encodes as itself: a Unicode scalar value. *)
Definition scalar (r : Z) : Prop :=
  0 ≤ r ≤ utf8.MaxRune ∧ ¬ (utf8.surrogateMin ≤ r ≤ utf8.surrogateMax).

(** ** The decoder and the encoder in arithmetic

    The proofs below go through these forms: a byte sequence is read as
    the number it denotes in base 64, and a rune is split the same way. *)

(** A continuation byte. *)
Definition cont (v : Z) : bool := (0x80 <=? v) && (v <=? 0xBF).

(** [DecodeRuneInString] without bit operations. *)
Definition decode_spec (s : string) : Z * nat :=
  match s with
  | EmptyString => (utf8.RuneError, 0%nat)
  | String b0 t0 =>
      let v0 := byte_val b0 in
      if v0 <? 0x80 then (v0, 1%nat)
      else if v0 <? 0xC2 then (utf8.RuneError, 1%nat)
      else if v0 <? 0xE0 then
        match t0 with
        | String b1 _ =>
            let v1 := byte_val b1 in
            if cont v1 then ((v0 - 0xC0) * 64 + (v1 - 0x80), 2%nat)
            else (utf8.RuneError, 1%nat)
        | _ => (utf8.RuneError, 1%nat)
        end
      else if v0 <? 0xF0 then
        match t0 with
        | String b1 (String b2 _) =>
            let v1 := byte_val b1 in
            let v2 := byte_val b2 in
            if ((if v0 =? 0xE0 then 0xA0 else 0x80) <=? v1)
               && (v1 <=? (if v0 =? 0xED then 0x9F else 0xBF)) && cont v2
            then ((v0 - 0xE0) * 4096 + (v1 - 0x80) * 64 + (v2 - 0x80), 3%nat)
            else (utf8.RuneError, 1%nat)
        | _ => (utf8.RuneError, 1%nat)
        end
      else if v0 <? 0xF5 then
        match t0 with
        | String b1 (String b2 (String b3 _)) =>
            let v1 := byte_val b1 in
            let v2 := byte_val b2 in
            let v3 := byte_val b3 in
            if ((if v0 =? 0xF0 then 0x90 else 0x80) <=? v1)
               && (v1 <=? (if v0 =? 0xF4 then 0x8F else 0xBF))
               && cont v2 && cont v3
            then ((v0 - 0xF0) * 262144 + (v1 - 0x80) * 4096
                  + (v2 - 0x80) * 64 + (v3 - 0x80), 4%nat)
            else (utf8.RuneError, 1%nat)
        | _ => (utf8.RuneError, 1%nat)
        end
      else (utf8.RuneError, 1%nat)
  end.

(** [EncodeRune] of a scalar value without bit operations. *)
Definition encode_spec (r : Z) : string :=
  if r <? 0x80 then String (byte_of r) ""
  else if r <? 0x800 then
    String (byte_of (0xC0 + r / 64)) (String (byte_of (0x80 + r mod 64)) "")
  else if r <? 0x10000 then
    String (byte_of (0xE0 + r / 4096))
   (String (byte_of (0x80 + r / 64 mod 64))
   (String (byte_of (0x80 + r mod 64)) ""))
  else
    String (byte_of (0xF0 + r / 262144))
   (String (byte_of (0x80 + r / 4096 mod 64))
   (String (byte_of (0x80 + r / 64 mod 64))
   (String (byte_of (0x80 + r mod 64)) ""))).

(** A string made of valid encodings of runes, each of them a fixed point
    of the mapping [f]. *)
Inductive Fixed (f : Z → Z) : string → Prop :=
  | Fixed_nil : Fixed f ""
  | Fixed_rune chunk c t :
      chunk ≠ "" →
      (∀ t', utf8.DecodeRuneInString (chunk +:+ t') = (c, String.length chunk)) →
      c ≠ utf8.RuneError ∨ String.length chunk ≠ 1%nat →
      f c = c →
      Fixed f t →
      Fixed f (chunk +:+ t).

(** ** Instances on which the program is run *)

(** Growth by doubling, as the runtime does for small slices. *)
Definition doublecap (oldCap newLen : nat) : nat :=
  if decide (2 * oldCap < newLen)%nat then newLen else (2 * oldCap)%nat.

(** The upper-case mapping of the Latin-1 letters, dotless i and long s. *)
Definition latin1_To_UpperCase (r : Z) : Z :=
  if (0xE0 <=? r) && (r <=? 0xFE) && negb (r =? 0xF7) then r - 32
  else if r =? 0xFF then 0x178
  else if r =? 0x131 then 0x49
  else if r =? 0x17F then 0x53
  else r.

Definition whale_heap : list array :=
  [StringArray ["Moby"; "the"; "Whale"; "IS"; "big"; "a"; ""; "whale"; ""]].

(** The slices [book[1:5]], [book[5:6]], [book[5:7]] and [book[7:9]] of the
    array [book] above. *)
Definition whale_words : slice := Slice (element 0 1) 4 8.
Definition a_words : slice := Slice (element 0 5) 1 4.
Definition a_empty_words : slice := Slice (element 0 5) 2 4.
Definition whale_empty_words : slice := Slice (element 0 7) 2 2.

(** The slices [book[9:9]], [book[1:3]] and [book[3:5]]. *)
Definition no_words : slice := Slice (element 0 9) 0 0.
Definition the_whale_words : slice := Slice (element 0 1) 2 8.
Definition is_big_words : slice := Slice (element 0 3) 2 6.

(** ** Tactics *)

Ltac run := unfold mbind, M_bind, mret, M_ret; simpl.

Ltac zlia := Z.div_mod_to_equations; lia.

Ltac zbool :=
  repeat match goal with
  | |- context [?a <? ?b] =>
      first [rewrite (proj2 (Z.ltb_lt a b)) by lia
            |rewrite (proj2 (Z.ltb_ge a b)) by lia]
  | |- context [?a <=? ?b] =>
      first [rewrite (proj2 (Z.leb_le a b)) by lia
            |rewrite (proj2 (Z.leb_gt a b)) by lia]
  | |- context [?a =? ?b] =>
      first [rewrite (proj2 (Z.eqb_eq a b)) by lia
            |rewrite (proj2 (Z.eqb_neq a b)) by lia]
  end.

Ltac zeqb :=
  repeat match goal with
  | |- context [?a =? ?b] =>
      first [rewrite (proj2 (Z.eqb_eq a b)) by lia
            |rewrite (proj2 (Z.eqb_neq a b)) by lia]
  end.

Ltac zsplit :=
  repeat match goal with
  | |- context [?a <? ?b] => destruct (Z.ltb_spec a b)
  | |- context [?a <=? ?b] => destruct (Z.leb_spec a b)
  | |- context [?a =? ?b] => destruct (Z.eqb_spec a b)
  end.

Ltac zbool' :=
  repeat match goal with
  | |- context [?a <? ?b] =>
      first [rewrite (proj2 (Z.ltb_lt a b)) by zlia
            |rewrite (proj2 (Z.ltb_ge a b)) by zlia]
  | |- context [?a <=? ?b] =>
      first [rewrite (proj2 (Z.leb_le a b)) by zlia
            |rewrite (proj2 (Z.leb_gt a b)) by zlia]
  | |- context [?a =? ?b] =>
      first [rewrite (proj2 (Z.eqb_eq a b)) by zlia
            |rewrite (proj2 (Z.eqb_neq a b)) by zlia]
  end.

Section Program.

(** [unicode.To(unicode.UpperCase, r)], the lookup in the table
    [unicode.CaseRanges]. *)
Variable To_UpperCase : Z → Z.

(** The capacity [runtime.growslice] chooses, from the old capacity
    and the length needed. *)
Variable growcap : nat → nat → nat.

Definition MaxASCII : Z := 0x7F.

(** [unicode.ToUpper]: the letters ['a'] (0x61) to ['z'] (0x7A) lose
    ['a' - 'A']; above ASCII the case table decides. *)
Definition unicode_ToUpper (r : Z) : Z :=
  if r <=? MaxASCII then
    if (0x61 <=? r) && (r <=? 0x7A) then r - (0x61 - 0x41) else r
  else To_UpperCase r.

(** First loop of [strings.ToUpper]: [(isASCII, hasLower)]. *)
Fixpoint scan_ASCII (s : string) (hasLower : bool) : bool * bool :=
  match s with
  | EmptyString => (true, hasLower)
  | String c s' =>
      if utf8.RuneSelf <=? byte_val c then (false, hasLower)
      else scan_ASCII s'
             (hasLower || ((0x61 <=? byte_val c) && (byte_val c <=? 0x7A)))
  end.

(** Second loop of [strings.ToUpper], for an ASCII string. *)
Fixpoint upper_ASCII (s : string) (b : string) : string :=
  match s with
  | EmptyString => b
  | String c s' =>
      let c :=
        if (0x61 <=? byte_val c) && (byte_val c <=? 0x7A)
        then byte_of (byte_val c - (0x61 - 0x41)) else c in
      upper_ASCII s' (strings.WriteByte b c)
  end.

(** [strings.ToUpper]: an ASCII string without lower-case letters is
    returned as it is, any other ASCII string is mapped byte by byte, and
    a string with a byte above 0x7F goes through [Map]. *)
Definition strings_ToUpper (s : string) : string :=
  let '(isASCII, hasLower) := scan_ASCII s false in
  if isASCII then
    if negb hasLower then s else upper_ASCII s ""
  else strings.Map unicode_ToUpper s.

(** [words.go]: the processing of one word. *)
Definition process (word : string) : string := strings_ToUpper word.

(** [runtime.growslice]: a new array of the chosen capacity, the old
    elements copied into it. *)
Definition growslice (old : slice) (newLen : nat) : M slice :=
  elems ← load_Words old;
  let newcap := growcap (cap old) newLen in
  l ← mallocgc (WordArray (elems ++ replicate (newcap - len old) zeroWord));
  mret (Slice (element l 0) newLen newcap).

(** [append(s, w)] *)
Definition append (s : slice) (w : Word) : M slice :=
  let newLen := (len s + 1)%nat in
  s' ← (if decide (cap s < newLen)%nat then growslice s newLen
        else mret (Slice (data s) newLen (cap s)));
  _ ← store_Word (data s') (len s) w;
  mret s'.

(** [words.go]: the two transforms.  The loop index is below
    [len(rawWords)], which fits an [int], so its value as an integer is
    exact. *)
Definition ProcessWords (rawWords : slice) : M slice :=
  words ← make_Word 0 0;
  for_range rawWords
    (λ i w words, append words (mkWord (process w) (Z.of_nat i))) words.

Definition ProcessWordsFaster (rawWords : slice) : M slice :=
  words ← make_Word 0 (len rawWords);
  for_range rawWords
    (λ i w words, append words (mkWord (process w) (Z.of_nat i))) words.

End Program.

(** ** Bytes and bit operations *)

Lemma byte_val_range b : 0 ≤ byte_val b < 256.
Proof.
  unfold byte_val. pose proof (N_ascii_bounded b). lia.
Qed.

Lemma byte_val_of x : byte_val (byte_of x) = x mod 256.
Proof.
  unfold byte_val, byte_of. rewrite N_ascii_embedding.
  - apply Z2N.id. apply Z.mod_pos_bound. lia.
  - pose proof (Z.mod_pos_bound x 256 ltac:(lia)). lia.
Qed.

Lemma byte_of_val b : byte_of (byte_val b) = b.
Proof.
  unfold byte_of. rewrite Z.mod_small by apply byte_val_range.
  unfold byte_val. rewrite N2Z.id. apply ascii_N_embedding.
Qed.

Lemma land_disjoint a b n :
  0 ≤ n → 0 ≤ b < 2 ^ n → a mod 2 ^ n = 0 → Z.land a b = 0.
Proof.
  intros Hn Hb Ha. apply Z.bits_inj'. intros i Hi.
  rewrite Z.land_spec, Z.bits_0.
  destruct (Z.lt_ge_cases i n) as [Hlt|Hge].
  - assert (a = (a / 2 ^ n) * 2 ^ n) as ->.
    { pose proof (Z.div_mod a (2 ^ n) ltac:(lia)). lia. }
    by rewrite Z.mul_pow2_bits_low.
  - rewrite andb_false_iff. right.
    destruct (Z.eq_dec b 0) as [->|Hb0]; [apply Z.bits_0|].
    apply Z.bits_above_log2; [lia|].
    apply Z.log2_lt_pow2; [lia|].
    eapply Z.lt_le_trans; [apply Hb|]. apply Z.pow_le_mono_r; lia.
Qed.

Lemma lor_disjoint a b n :
  0 ≤ n → 0 ≤ b < 2 ^ n → a mod 2 ^ n = 0 → Z.lor a b = a + b.
Proof.
  intros Hn Hb Ha. pose proof (Z.add_lor_land a b) as H.
  rewrite (land_disjoint a b n) in H by done. lia.
Qed.

Ltac first_is X :=
  match goal with
  | Hx : utf8.first ?v = _ |- _ =>
      replace (utf8.first v) with X by (rewrite Hx; zbool; reflexivity);
      clear Hx
  end;
  let e := eval vm_compute in (utf8.as_ <=? X) in
  change (utf8.as_ <=? X) with e;
  let e := eval vm_compute in (Z.to_nat (Z.land X 7)) in
  change (Z.to_nat (Z.land X 7)) with e;
  let e := eval vm_compute in (utf8.acceptRanges (Z.shiftr X 4)) in
  change (utf8.acceptRanges (Z.shiftr X 4)) with e;
  cbn [fst snd].

Ltac pow2 :=
  change (2 ^ 3) with 8; change (2 ^ 4) with 16; change (2 ^ 5) with 32;
  change (2 ^ 6) with 64; change (2 ^ 12) with 4096;
  change (2 ^ 18) with 262144.

Ltac norm_bits :=
  change utf8.maskx with (Z.ones 6); change utf8.mask2 with (Z.ones 5);
  change utf8.mask3 with (Z.ones 4); change utf8.mask4 with (Z.ones 3);
  rewrite ?Z.land_ones by lia; rewrite ?Z.shiftl_mul_pow2 by lia;
  rewrite ?Z.shiftr_div_pow2 by lia; pow2.

Ltac lor_add n :=
  rewrite (lor_disjoint _ _ n) by (pow2; zlia).

(** ** The decoder *)

Lemma land_mask a n : 0 ≤ n → Z.land a (Z.ones n) = a mod 2 ^ n.
Proof. apply Z.land_ones. Qed.

Lemma first_class v :
  0 ≤ v < 256 →
  utf8.first v =
    if v <? 0x80 then utf8.as_
    else if (v <? 0xC2) || (0xF4 <? v) then utf8.xx
    else if v <? 0xE0 then utf8.s1
    else if v =? 0xE0 then utf8.s2
    else if v =? 0xED then utf8.s4
    else if v <? 0xF0 then utf8.s3
    else if v =? 0xF0 then utf8.s5
    else if v =? 0xF4 then utf8.s7
    else utf8.s6.
Proof. intros Hv. unfold utf8.first. zsplit; simpl; try reflexivity; lia. Qed.

Lemma Decode_unfold b0 t0 :
  utf8.DecodeRuneInString (String b0 t0) =
    let n := S (String.length t0) in
    let s0 := byte_val b0 in
    let x := utf8.first s0 in
    if utf8.as_ <=? x then
      let mask := Z.shiftr (int32 (Z.shiftl x 31)) 31 in
      (Z.lor (Z.land s0 (Z.lnot mask)) (Z.land utf8.RuneError mask), 1%nat)
    else
      let sz := Z.to_nat (Z.land x 7) in
      let accept := utf8.acceptRanges (Z.shiftr x 4) in
      if (n <? sz)%nat then (utf8.RuneError, 1%nat)
      else
        let b1 := byte_at t0 0 in
        if (b1 <? fst accept) || (snd accept <? b1) then (utf8.RuneError, 1%nat)
        else if (sz <=? 2)%nat then
          (Z.lor (Z.shiftl (Z.land s0 utf8.mask2) 6) (Z.land b1 utf8.maskx), 2%nat)
        else
          let b2 := byte_at t0 1 in
          if (b2 <? utf8.locb) || (utf8.hicb <? b2) then (utf8.RuneError, 1%nat)
          else if (sz <=? 3)%nat then
            (Z.lor (Z.lor (Z.shiftl (Z.land s0 utf8.mask3) 12)
                          (Z.shiftl (Z.land b1 utf8.maskx) 6))
                   (Z.land b2 utf8.maskx), 3%nat)
          else
            let b3 := byte_at t0 2 in
            if (b3 <? utf8.locb) || (utf8.hicb <? b3) then (utf8.RuneError, 1%nat)
            else
              (Z.lor (Z.lor (Z.lor (Z.shiftl (Z.land s0 utf8.mask4) 18)
                                   (Z.shiftl (Z.land b1 utf8.maskx) 12))
                            (Z.shiftl (Z.land b2 utf8.maskx) 6))
                     (Z.land b3 utf8.maskx), 4%nat).
Proof. reflexivity. Qed.

Lemma Decode_spec s : utf8.DecodeRuneInString s = decode_spec s.
Proof.
  destruct s as [|b0 t0]; [reflexivity|].
  rewrite Decode_unfold. cbv zeta. unfold decode_spec. cbv zeta.
  pose proof (byte_val_range b0) as H0.
  pose proof (first_class _ H0) as Hx.
  set (v0 := byte_val b0) in *. clearbody v0.
  unfold cont, utf8.locb, utf8.hicb.
  destruct (Z.ltb_spec v0 0x80).
  { first_is utf8.as_.
    replace (Z.shiftr (int32 (Z.shiftl utf8.as_ 31)) 31) with 0 by reflexivity.
    rewrite Z.land_0_r, Z.lor_0_r. change (Z.lnot 0) with (-1).
    by rewrite Z.land_m1_r. }
  destruct (Z.ltb_spec v0 0xC2).
  { first_is utf8.xx.
    replace (Z.shiftr (int32 (Z.shiftl utf8.xx 31)) 31) with (-1) by reflexivity.
    change (Z.lnot (-1)) with 0. by rewrite Z.land_0_r, Z.land_m1_r. }
  destruct (Z.ltb_spec v0 0xE0).
  { first_is utf8.s1. destruct t0 as [|b1 t]; [reflexivity|].
    cbn [String.length byte_at String.get Nat.ltb Nat.leb].
    pose proof (byte_val_range b1). set (v1 := byte_val b1) in *. clearbody v1.
    destruct (Z.ltb_spec v1 128); destruct (Z.leb_spec 128 v1); try lia;
      [reflexivity|].
    destruct (Z.ltb_spec 191 v1); destruct (Z.leb_spec v1 191); try lia;
      [reflexivity|].
    cbn [orb andb]. norm_bits. lor_add 6. f_equal. zlia. }
  assert (∀ b, 0 ≤ byte_val b) as Hnn by (intros b; apply byte_val_range).
  destruct (Z.ltb_spec v0 0xF0).
  { destruct t0 as [|b1 [|b2 t]].
    1,2: destruct (Z.eqb_spec v0 0xE0); [first_is utf8.s2; reflexivity|];
         destruct (Z.eqb_spec v0 0xED);
         [first_is utf8.s4; reflexivity|first_is utf8.s3; reflexivity].
    pose proof (byte_val_range b1). pose proof (byte_val_range b2).
    destruct (Z.eqb_spec v0 0xE0); [first_is utf8.s2|];
    [|destruct (Z.eqb_spec v0 0xED); [first_is utf8.s4|first_is utf8.s3]].
    all: cbn [String.length byte_at String.get Nat.ltb Nat.leb].
    all: set (v1 := byte_val b1) in *; set (v2 := byte_val b2) in *.
    all: clearbody v1 v2; rewrite !Z.ltb_antisym; zeqb.
    all: zsplit; cbn [orb andb negb]; try reflexivity; try lia.
    all: norm_bits; rewrite (lor_disjoint (_ * 4096) _ 12) by (pow2; zlia).
    all: lor_add 6; f_equal; zlia. }
  destruct (Z.ltb_spec v0 0xF5).
  { replace (244 <? v0) with false in Hx by (symmetry; apply Z.ltb_ge; lia).
    destruct t0 as [|b1 [|b2 [|b3 t]]].
    1,2,3: destruct (Z.eqb_spec v0 0xF0); [first_is utf8.s5; reflexivity|];
         destruct (Z.eqb_spec v0 0xF4);
         [first_is utf8.s7; reflexivity|first_is utf8.s6; reflexivity].
    pose proof (byte_val_range b1). pose proof (byte_val_range b2).
    pose proof (byte_val_range b3).
    destruct (Z.eqb_spec v0 0xF0); [first_is utf8.s5|];
    [|destruct (Z.eqb_spec v0 0xF4); [first_is utf8.s7|first_is utf8.s6]].
    all: cbn [String.length byte_at String.get Nat.ltb Nat.leb].
    all: set (v1 := byte_val b1) in *; set (v2 := byte_val b2) in *.
    all: set (v3 := byte_val b3) in *.
    all: clearbody v1 v2 v3; rewrite !Z.ltb_antisym; zeqb.
    all: zsplit; cbn [orb andb negb]; try reflexivity; try lia.
    all: norm_bits; rewrite (lor_disjoint (_ * 262144) _ 18) by (pow2; zlia).
    all: rewrite (lor_disjoint (_ + _ * 4096) _ 12) by (pow2; zlia).
    all: lor_add 6; f_equal; zlia. }
  first_is utf8.xx.
  replace (Z.shiftr (int32 (Z.shiftl utf8.xx 31)) 31) with (-1) by reflexivity.
  change (Z.lnot (-1)) with 0. by rewrite Z.land_0_r, Z.land_m1_r.
Qed.

(** ** The encoder *)

Lemma scalar_range r :
  scalar r → 0 ≤ r ≤ 0x10FFFF ∧ (r < 0xD800 ∨ 0xDFFF < r).
Proof.
  unfold scalar, utf8.MaxRune, utf8.surrogateMin, utf8.surrogateMax. lia.
Qed.

Lemma mod_256_64 x : (x mod 256) mod 64 = x mod 64.
Proof. zlia. Qed.

Lemma EncodeRune_spec r : scalar r → utf8.EncodeRune r = encode_spec r.
Proof.
  intros Hr%scalar_range. unfold utf8.EncodeRune, encode_spec. cbv zeta.
  unfold uint32. rewrite (Z.mod_small r) by lia.
  unfold utf8.rune1Max, utf8.rune2Max, utf8.rune3Max, utf8.MaxRune,
    utf8.surrogateMin, utf8.surrogateMax.
  rewrite !byte_val_of.
  destruct (Z.ltb_spec r 0x80); destruct (Z.leb_spec r 0x7F); try lia;
    [done|].
  destruct (Z.ltb_spec r 0x800); destruct (Z.leb_spec r 0x7FF); try lia.
  { norm_bits. unfold utf8.t2, utf8.tx.
    rewrite (lor_disjoint 192 _ 5) by (pow2; zlia).
    rewrite (lor_disjoint 128 _ 6) by (pow2; zlia).
    rewrite !mod_256_64, (Z.mod_small (r / 64)) by zlia. done. }
  replace (1114111 <? r) with false by (symmetry; apply Z.ltb_ge; lia).
  replace ((55296 <=? r) && (r <=? 57343)) with false
    by (symmetry; apply andb_false_iff; rewrite Z.leb_gt, Z.leb_gt; lia).
  cbn [orb].
  destruct (Z.ltb_spec r 0x10000); destruct (Z.leb_spec r 0xFFFF); try lia.
  { norm_bits. unfold utf8.t3, utf8.tx.
    rewrite (lor_disjoint 224 _ 4) by (pow2; zlia).
    rewrite !(lor_disjoint 128 _ 6) by (pow2; zlia).
    rewrite !mod_256_64, (Z.mod_small (r / 4096)) by zlia. done. }
  norm_bits. unfold utf8.t4, utf8.tx.
  rewrite (lor_disjoint 240 _ 3) by (pow2; zlia).
  rewrite !(lor_disjoint 128 _ 6) by (pow2; zlia).
  rewrite !mod_256_64, (Z.mod_small (r / 262144)) by zlia. done.
Qed.

Lemma app_String b s t : String b s +:+ t = String b (s +:+ t).
Proof. reflexivity. Qed.

Lemma app_Empty t : "" +:+ t = t.
Proof. reflexivity. Qed.

Lemma byte_val_small x : 0 ≤ x < 256 → byte_val (byte_of x) = x.
Proof. intros. rewrite byte_val_of. by apply Z.mod_small. Qed.

Lemma Decode_Encode r t :
  scalar r →
  utf8.DecodeRuneInString (utf8.EncodeRune r +:+ t)
  = (r, String.length (utf8.EncodeRune r)).
Proof.
  intros Hr. rewrite EncodeRune_spec by done. apply scalar_range in Hr.
  rewrite Decode_spec. unfold encode_spec.
  destruct (Z.ltb_spec r 0x80).
  { rewrite ?app_String, app_Empty. unfold decode_spec. cbn [String.length]. cbv zeta.
    rewrite byte_val_small by lia. by zbool. }
  destruct (Z.ltb_spec r 0x800).
  { rewrite ?app_String, app_Empty. unfold decode_spec. cbn [String.length]. cbv zeta. unfold cont.
    rewrite !byte_val_small by zlia. zbool'. cbn [andb]. f_equal. zlia. }
  destruct (Z.ltb_spec r 0x10000).
  { rewrite ?app_String, app_Empty. unfold decode_spec. cbn [String.length]. cbv zeta. unfold cont.
    rewrite !byte_val_small by zlia. zbool'.
    repeat match goal with
           | |- context [?a =? ?b] => destruct (Z.eqb_spec a b)
           end; zbool'; cbn [andb]; f_equal; zlia. }
  rewrite ?app_String, app_Empty. unfold decode_spec. cbn [String.length]. cbv zeta.
  unfold cont. rewrite !byte_val_small by zlia. zbool'.
  repeat match goal with
         | |- context [?a =? ?b] => destruct (Z.eqb_spec a b)
         end; zbool'; cbn [andb]; f_equal; zlia.
Qed.

Lemma scalar_intro r :
  0 ≤ r ≤ 0x10FFFF → (r < 0xD800 ∨ 0xDFFF < r) → scalar r.
Proof.
  unfold scalar, utf8.MaxRune, utf8.surrogateMin, utf8.surrogateMax. lia.
Qed.

Lemma Decode_ASCII b t :
  byte_val b < 0x80 → utf8.DecodeRuneInString (String b t) = (byte_val b, 1%nat).
Proof. intros Hb. rewrite Decode_spec. unfold decode_spec. by zbool. Qed.

(** The three ways a decoding step can go. *)
Lemma Decode_cases s c w :
  utf8.DecodeRuneInString s = (c, w) →
  (s = "" ∧ w = 0%nat ∧ c = utf8.RuneError)
  ∨ (∃ b t, s = String b t ∧ w = 1%nat ∧
       (c = utf8.RuneError ∨ (c = byte_val b ∧ c < 0x80)))
  ∨ (∃ chunk t, s = chunk +:+ t ∧ String.length chunk = w ∧ (2 ≤ w)%nat ∧
       scalar c ∧ 0x80 ≤ c ∧
       ∀ t', utf8.DecodeRuneInString (chunk +:+ t') = (c, w)).
Proof.
  rewrite Decode_spec. destruct s as [|b0 t0].
  { intros [= <- <-]. by left. }
  intros Hdec. right. unfold decode_spec in Hdec. cbv zeta in Hdec.
  pose proof (byte_val_range b0) as H0.
  assert (∀ b t, (utf8.RuneError, 1%nat) = (c, w) →
     (∃ b' t', String b t = String b' t' ∧ w = 1%nat ∧
        (c = utf8.RuneError ∨ c = byte_val b' ∧ c < 128)) ∨
     (∃ chunk t', String b t = chunk +:+ t' ∧ String.length chunk = w ∧
        (2 ≤ w)%nat ∧ scalar c ∧ 128 ≤ c ∧
        ∀ t'0, utf8.DecodeRuneInString (chunk +:+ t'0) = (c, w))) as Hbad.
  { intros b t [= <- <-]. left. exists b, t. auto. }
  destruct (Z.ltb_spec (byte_val b0) 0x80).
  { injection Hdec as <- <-. left. exists b0, t0. auto. }
  destruct (Z.ltb_spec (byte_val b0) 0xC2); [by apply Hbad|].
  destruct (Z.ltb_spec (byte_val b0) 0xE0).
  { destruct t0 as [|b1 t]; [by apply Hbad|]. cbv zeta in Hdec.
    pose proof (byte_val_range b1). unfold cont in Hdec.
    destruct (Z.leb_spec 128 (byte_val b1)); [|by apply Hbad].
    destruct (Z.leb_spec (byte_val b1) 191); [|by apply Hbad].
    injection Hdec as <- <-. right.
    exists (String b0 (String b1 "")), t. split_and!; try done.
    - apply scalar_intro; lia.
    - lia.
    - intros t'. rewrite Decode_spec, !app_String, app_Empty.
      unfold decode_spec, cont. cbv zeta. by zbool. }
  destruct (Z.ltb_spec (byte_val b0) 0xF0).
  { destruct t0 as [|b1 [|b2 t]]; [by apply Hbad..|]. cbv zeta in Hdec.
    pose proof (byte_val_range b1). pose proof (byte_val_range b2).
    unfold cont in Hdec.
    destruct (Z.eqb_spec (byte_val b0) 224), (Z.eqb_spec (byte_val b0) 237);
      try lia;
    match type of Hdec with context [?a <=? byte_val b1] =>
           destruct (Z.leb_spec a (byte_val b1)); [|by apply Hbad] end;
    match type of Hdec with context [byte_val b1 <=? ?a] =>
           destruct (Z.leb_spec (byte_val b1) a); [|by apply Hbad] end;
    (destruct (Z.leb_spec 128 (byte_val b2)); [|by apply Hbad]);
    (destruct (Z.leb_spec (byte_val b2) 191); [|by apply Hbad]);
    injection Hdec as <- <-; right;
    exists (String b0 (String b1 (String b2 ""))), t;
    (split; [done|]); (split; [done|]); (split; [simpl; lia|]);
    (split; [apply scalar_intro; lia|]); (split; [lia|]);
    intros t'; rewrite Decode_spec, !app_String, app_Empty;
    unfold decode_spec, cont; cbv zeta; by zbool. }
  destruct (Z.ltb_spec (byte_val b0) 0xF5); [|by apply Hbad].
  destruct t0 as [|b1 [|b2 [|b3 t]]]; [by apply Hbad..|]. cbv zeta in Hdec.
  pose proof (byte_val_range b1). pose proof (byte_val_range b2).
  pose proof (byte_val_range b3). unfold cont in Hdec.
  destruct (Z.eqb_spec (byte_val b0) 240), (Z.eqb_spec (byte_val b0) 244);
    try lia;
  match type of Hdec with context [?a <=? byte_val b1] =>
         destruct (Z.leb_spec a (byte_val b1)); [|by apply Hbad] end;
  match type of Hdec with context [byte_val b1 <=? ?a] =>
         destruct (Z.leb_spec (byte_val b1) a); [|by apply Hbad] end;
  (destruct (Z.leb_spec 128 (byte_val b2)); [|by apply Hbad]);
  (destruct (Z.leb_spec (byte_val b2) 191); [|by apply Hbad]);
  (destruct (Z.leb_spec 128 (byte_val b3)); [|by apply Hbad]);
  (destruct (Z.leb_spec (byte_val b3) 191); [|by apply Hbad]);
  injection Hdec as <- <-; right;
  exists (String b0 (String b1 (String b2 (String b3 "")))), t;
  (split; [done|]); (split; [done|]); (split; [simpl; lia|]);
    (split; [apply scalar_intro; lia|]); (split; [lia|]);
  intros t'; rewrite Decode_spec, !app_String, app_Empty;
  unfold decode_spec, cont; cbv zeta; by zbool.
Qed.

(** A decoded rune other than [RuneError] has the width [RuneLen] gives. *)
Lemma Decode_RuneLen s c w :
  utf8.DecodeRuneInString s = (c, w) → c ≠ utf8.RuneError →
  utf8.RuneLen c = Z.of_nat w.
Proof.
  rewrite Decode_spec. intros Hdec Hne.
  assert (∀ k : nat, (utf8.RuneError, k) ≠ (c, w)) as Hbad by congruence.
  unfold decode_spec, cont in Hdec.
  destruct s as [|b0 [|b1 [|b2 [|b3 t]]]]; cbv zeta in Hdec.
  all: repeat match goal with
         | b : ascii |- _ =>
             lazymatch goal with
             | _ : 0 ≤ byte_val b < 256 |- _ => fail
             | _ => pose proof (byte_val_range b)
             end
         end.
  all: repeat match type of Hdec with
         | context [?a =? ?b] => destruct (Z.eqb_spec a b)
         end.
  all: repeat match type of Hdec with
         | context [if ?b then _ else _] => destruct b eqn:?
         end;
       try (by apply Hbad in Hdec); injection Hdec as <- <-.
  all: repeat match goal with
         | H : (_ && _) = true |- _ => apply andb_true_iff in H as [? ?]
         end.
  all: repeat match goal with
         | H : (_ <? _) = true |- _ => apply Z.ltb_lt in H
         | H : (_ <? _) = false |- _ => apply Z.ltb_ge in H
         | H : (_ <=? _) = true |- _ => apply Z.leb_le in H
         | H : (_ =? _) = true |- _ => apply Z.eqb_eq in H
         | H : (_ =? _) = false |- _ => apply Z.eqb_neq in H
         end.
  all: try (exfalso; lia).
  all: unfold utf8.RuneLen, utf8.rune1Max, utf8.rune2Max, utf8.rune3Max,
         utf8.surrogateMin, utf8.surrogateMax, utf8.MaxRune.
  all: zbool; zsplit; cbn [andb]; try reflexivity; lia.
Qed.

(** ** Strings, [range] and the first loop of [Map] *)

Lemma app_assoc_s (a b c : string) : (a +:+ b) +:+ c = a +:+ (b +:+ c).
Proof. induction a as [|x a IH]; [done|]. by rewrite !app_String, IH. Qed.

Lemma app_Empty_r (a : string) : a +:+ "" = a.
Proof. induction a as [|x a IH]; [done|]. by rewrite app_String, IH. Qed.

Lemma slice_to_app a t : slice_to (a +:+ t) (String.length a) = a.
Proof.
  induction a as [|x a IH]; [by destruct t|].
  rewrite app_String. simpl. by rewrite IH.
Qed.

Lemma slice_to_app_add a t k :
  slice_to (a +:+ t) (String.length a + k) = a +:+ slice_to t k.
Proof.
  induction a as [|x a IH]; [reflexivity|].
  rewrite app_String. simpl. by rewrite IH.
Qed.

Lemma slice_from_app a t : slice_from (a +:+ t) (String.length a) = t.
Proof.
  induction a as [|x a IH]; [reflexivity|].
  rewrite app_String. simpl. by rewrite IH.
Qed.

Lemma slice_from_add s i n :
  slice_from s (i + n) = slice_from (slice_from s i) n.
Proof.
  revert s. induction i as [|i IH]; intros s; simpl; [done|].
  destruct s; [by destruct n|]. apply IH.
Qed.

Lemma slice_from_0 s : slice_from s 0 = s.
Proof. by destruct s. Qed.

Lemma slice_to_0 s : slice_to s 0 = "".
Proof. by destruct s. Qed.

Lemma length_app_s (a b : string) :
  String.length (a +:+ b) = (String.length a + String.length b)%nat.
Proof.
  induction a as [|x a IH]; [reflexivity|].
  rewrite app_String. simpl. by rewrite IH.
Qed.

Lemma length_slice_from s i :
  String.length (slice_from s i) = (String.length s - i)%nat.
Proof.
  revert s. induction i as [|i IH]; intros s; simpl; [lia|].
  destruct s; simpl; [done|]. apply IH.
Qed.

Lemma range_skip x t i :
  strings.range_from (x +:+ t) i (String.length x)
  = strings.range_from t (i + String.length x) 0.
Proof.
  revert i. induction x as [|b x IH]; intros i.
  - rewrite app_Empty. simpl. by rewrite Nat.add_0_r.
  - rewrite app_String. simpl. rewrite IH. f_equal. lia.
Qed.

(** One iteration of [range]: the rune at the head of a non-empty string. *)
Lemma range_unfold s i c w :
  s ≠ "" → utf8.DecodeRuneInString s = (c, w) →
  ∃ chunk t, s = chunk +:+ t ∧ String.length chunk = w ∧ (1 ≤ w)%nat ∧
    strings.range_from s i 0 = (i, c) :: strings.range_from t (i + w) 0 ∧
    scalar c ∧
    ((c ≠ utf8.RuneError ∨ w ≠ 1%nat) →
       ∀ t', utf8.DecodeRuneInString (chunk +:+ t') = (c, w)).
Proof.
  intros Hs Hdec.
  assert (∀ chunk t, s = chunk +:+ t → String.length chunk = w → (1 ≤ w)%nat →
    strings.range_from s i 0 = (i, c) :: strings.range_from t (i + w) 0) as Hr.
  { intros chunk t -> Hlen Hw. destruct chunk as [|b chunk]; [simpl in *; lia|].
    rewrite app_String. cbn [strings.range_from]. rewrite <- app_String, Hdec.
    f_equal. simpl in Hlen. subst w. simpl. rewrite Nat.sub_0_r, range_skip.
    f_equal. lia. }
  destruct (Decode_cases _ _ _ Hdec)
    as [(-> & _)|[(b & t & -> & -> & Hc)|(chunk & t & -> & Hlen & Hw & Hsc & Hc & Hloc)]];
    [done| |].
  - exists (String b ""), t. split_and!; try done.
    + by apply (Hr (String b "") t).
    + destruct Hc as [->|[-> ?]]; apply scalar_intro; try done.
      all: pose proof (byte_val_range b); unfold utf8.RuneError; lia.
    + intros [Hne|?] t'; [|done]. destruct Hc as [->|[-> ?]]; [done|].
      by apply Decode_ASCII.
  - exists chunk, t. split_and!; try done; try lia.
    apply (Hr chunk t); [done..|lia].
Qed.

Lemma Fixed_app f a b : Fixed f a → Fixed f b → Fixed f (a +:+ b).
Proof.
  induction 1 as [|chunk c t Hne Hdec Hv Hf Ht IH]; intros Hb; [done|].
  rewrite app_assoc_s. econstructor; eauto.
Qed.

Lemma Fixed_single f chunk c :
  chunk ≠ "" →
  (∀ t', utf8.DecodeRuneInString (chunk +:+ t') = (c, String.length chunk)) →
  c ≠ utf8.RuneError ∨ String.length chunk ≠ 1%nat →
  f c = c → Fixed f chunk.
Proof.
  intros. rewrite <- (app_Empty_r chunk). econstructor; eauto. constructor.
Qed.

Lemma Map_scan_Fixed f t :
  Fixed f t →
  ∀ s i, slice_from s i = t →
    strings.Map_scan f s (strings.range_from t i 0) = None.
Proof.
  induction 1 as [|chunk c t Hne Hdec Hv Hf Ht IH]; intros s i Hs; [done|].
  destruct (range_unfold (chunk +:+ t) i c (String.length chunk))
    as (chunk' & t' & Heq & Hlen & Hw & -> & _); [by destruct chunk|done|].
  assert (t' = t) as ->.
  { rewrite <- (slice_from_app chunk t), Heq, <- Hlen. symmetry. apply slice_from_app. }
  cbn [strings.Map_scan]. rewrite Hf, Z.eqb_refl.
  assert (strings.Map_scan f s (strings.range_from t (i + String.length chunk) 0)
          = None) as Hrest.
  { apply IH. by rewrite slice_from_add, Hs, slice_from_app. }
  destruct (Z.eqb_spec c utf8.RuneError) as [Hc|Hc]; cbn [negb andb]; [|done].
  rewrite Hs, Hdec. destruct Hv as [?|Hv]; [done|].
  rewrite Z.eqb_refl.
  destruct (Nat.eqb_spec (String.length chunk) 1); [done|]. done.
Qed.

Lemma Map_Fixed f t : Fixed f t → strings.Map f t = t.
Proof.
  intros Ht. unfold strings.Map, strings.range.
  by rewrite (Map_scan_Fixed f t Ht t 0 (slice_from_0 t)).
Qed.

Lemma range_scalar n : ∀ s i,
  (String.length s ≤ n)%nat →
  Forall (λ ic, scalar ic.2) (strings.range_from s i 0).
Proof.
  induction n as [|n IH]; intros s i Hn.
  - destruct s; [constructor|simpl in Hn; lia].
  - destruct s as [|b s]; [constructor|].
    destruct (utf8.DecodeRuneInString (String b s)) as [c w] eqn:Hdec.
    destruct (range_unfold (String b s) i c w)
      as (chunk & t & Heq & Hlen & Hw & -> & Hsc & _); [done..|].
    constructor; [done|]. apply IH.
    assert (String.length (String b s) = String.length (chunk +:+ t)) as Hl
      by by rewrite Heq.
    rewrite length_app_s in Hl. simpl in *. lia.
Qed.

(** What the first loop of [Map] leaves: a fixed string when it runs to
    the end, a fixed prefix before the rune where it stops. *)
Lemma Map_scan_inv f s n : ∀ t i,
  (String.length t ≤ n)%nat → slice_from s i = t →
  match strings.Map_scan f s (strings.range_from t i 0) with
  | None => Fixed f t
  | Some (j, r, width) =>
      ∃ k c, j = (i + k)%nat ∧ Fixed f (slice_to t k) ∧ r = f c ∧ scalar c
  end.
Proof.
  induction n as [|n IH]; intros t i Hn Hs.
  { destruct t; [constructor|simpl in Hn; lia]. }
  destruct t as [|b t0]; [constructor|].
  destruct (utf8.DecodeRuneInString (String b t0)) as [c w] eqn:Hdec.
  destruct (range_unfold (String b t0) i c w)
    as (chunk & t & Heq & Hlen & Hw & -> & Hsc & Hloc); [done..|].
  rewrite Heq in *. clear Heq b t0.
  rewrite length_app_s in Hn.
  assert (chunk ≠ "") as Hne by (destruct chunk; [simpl in *; lia|done]).
  specialize (IH t (i + w)%nat ltac:(lia)
                ltac:(by rewrite slice_from_add, Hs, <- Hlen, slice_from_app)).
  assert (f c = c → c ≠ utf8.RuneError ∨ w ≠ 1%nat →
    match strings.Map_scan f s (strings.range_from t (i + w) 0) with
    | None => Fixed f (chunk +:+ t)
    | Some (j, r, _) =>
        ∃ k c0, j = (i + k)%nat ∧ Fixed f (slice_to (chunk +:+ t) k) ∧
                r = f c0 ∧ scalar c0
    end) as Hcont.
  { intros Hf Hv.
    destruct (strings.Map_scan f s (strings.range_from t (i + w) 0))
      as [[[j r] width]|].
    - destruct IH as (k & c0 & -> & Hfix & -> & Hsc0).
      exists (w + k)%nat, c0. split_and!; [lia| |done|done].
      rewrite <- Hlen, slice_to_app_add. rewrite <- Hlen in *.
      econstructor; eauto.
    - rewrite <- Hlen in *. econstructor; eauto. }
  assert (∃ k c0, i = (i + k)%nat ∧
            Fixed f (slice_to (chunk +:+ t) k) ∧ f c = f c0 ∧ scalar c0)
    as Hstop.
  { exists 0%nat, c. rewrite slice_to_0.
    split_and!; [lia|constructor|done|done]. }
  cbn [strings.Map_scan].
  destruct (Z.eqb_spec (f c) c) as [Hf|Hf];
    destruct (Z.eqb_spec c utf8.RuneError) as [Hc|Hc]; cbn [negb andb].
  - rewrite Hs, Hdec.
    destruct (Nat.eqb_spec w 1) as [Hw1|Hw1]; cbn [negb andb].
    + apply Hstop.
    + rewrite (proj2 (Z.eqb_eq (f c) c)) by done. apply Hcont; auto.
  - apply Hcont; auto.
  - rewrite Hs, Hdec. rewrite (proj2 (Z.eqb_neq (f c) c)) by done.
    rewrite andb_false_r. apply Hstop.
  - apply Hstop.
Qed.

(** The slice [s[i+width:]] taken by [Map] where its first loop stops is
    within the string. *)
Lemma Map_scan_in_range f s n : ∀ t i,
  (String.length t ≤ n)%nat → slice_from s i = t →
  (i + String.length t = String.length s)%nat →
  ∀ j r width,
    strings.Map_scan f s (strings.range_from t i 0) = Some (j, r, width) →
    0 < width ∧ (j + Z.to_nat width ≤ String.length s)%nat.
Proof.
  induction n as [|n IH]; intros t i Hn Hs Hlen j r width.
  { destruct t; [done|simpl in Hn; lia]. }
  destruct t as [|b t0]; [done|].
  destruct (utf8.DecodeRuneInString (String b t0)) as [c w] eqn:Hdec.
  destruct (range_unfold (String b t0) i c w)
    as (chunk & t & Heq & Hw & Hw1 & -> & _); [done..|].
  rewrite Heq in *. clear Heq b t0. rewrite length_app_s in Hn, Hlen.
  specialize (IH t (i + w)%nat ltac:(lia)
                ltac:(by rewrite slice_from_add, Hs, <- Hw, slice_from_app)
                ltac:(lia) j r width).
  assert (∀ width', width' = Z.of_nat w →
            Some (i, f c, width') = Some (j, r, width) →
            0 < width ∧ (j + Z.to_nat width ≤ String.length s)%nat) as Hstop.
  { intros width' -> [= <- <- <-]. lia. }
  cbn [strings.Map_scan].
  destruct ((f c =? c) && negb (c =? utf8.RuneError)); [done|].
  destruct (Z.eqb_spec c utf8.RuneError) as [Hc|Hc].
  - rewrite Hs, Hdec.
    destruct (negb (w =? 1)%nat && (f c =? c)); [done|]. by apply Hstop.
  - apply Hstop. by eapply Decode_RuneLen.
Qed.

Lemma Map_slices_in_range f s i r width :
  strings.Map_scan f s (strings.range s) = Some (i, r, width) →
  0 < width ∧ (i + Z.to_nat width ≤ String.length s)%nat.
Proof.
  apply (Map_scan_in_range f s (String.length s) s 0); [lia| |lia].
  apply slice_from_0.
Qed.

Section Mapping.

Variable f : Z → Z.
Hypothesis f_scalar : ∀ c, scalar c → scalar (f c).
Hypothesis f_idem : ∀ c, scalar c → f (f c) = f c.

Lemma EncodeRune_length r :
  scalar r → 0x80 ≤ r → (2 ≤ String.length (utf8.EncodeRune r))%nat.
Proof.
  intros Hr Hlo. rewrite EncodeRune_spec by done. unfold encode_spec.
  zsplit; simpl; lia.
Qed.

(** The bytes written for the image of a scalar value are a fixed string. *)
Lemma Fixed_written c :
  scalar c →
  Fixed f (if f c <? utf8.RuneSelf then String (byte_of (f c)) ""
           else utf8.EncodeRune (f c)).
Proof.
  intros Hc. pose proof (f_scalar c Hc) as Hr. pose proof (f_idem c Hc) as Hi.
  pose proof (scalar_range _ Hr) as Hrange. unfold utf8.RuneSelf.
  destruct (Z.ltb_spec (f c) 0x80).
  - apply (Fixed_single f _ (f c)); [done| | |done].
    + intros t'. rewrite app_String, app_Empty.
      rewrite <- (byte_val_small (f c)) at 2 by lia.
      apply Decode_ASCII. rewrite byte_val_small; lia.
    + left. unfold utf8.RuneError. lia.
  - pose proof (EncodeRune_length _ Hr ltac:(lia)).
    apply (Fixed_single f _ (f c)); [| | |done].
    + destruct (utf8.EncodeRune (f c)); [simpl in *; lia|done].
    + intros t'. by apply Decode_Encode.
    + right. lia.
Qed.

Lemma Map_write_Fixed rs : ∀ b,
  Forall (λ ic, scalar ic.2) rs → Fixed f b →
  Fixed f (strings.Map_write f b rs).
Proof.
  unfold strings.Map_write.
  induction rs as [|[i c] rs IH]; intros b Hrs Hb; [done|].
  inversion_clear Hrs as [|? ? Hc Hrs']. simpl in Hc. cbn [fold_left].
  apply IH; [done|]. cbn [snd].
  pose proof (scalar_range _ (f_scalar c Hc)) as Hrange.
  rewrite (proj2 (Z.leb_le 0 (f c))) by lia.
  pose proof (Fixed_written c Hc) as Hw.
  unfold strings.WriteByte, strings.WriteRune.
  destruct (f c <? utf8.RuneSelf); by apply Fixed_app.
Qed.

Lemma Map_result_Fixed s : Fixed f (strings.Map f s).
Proof.
  unfold strings.Map, strings.range.
  pose proof (Map_scan_inv f s (String.length s) s 0 ltac:(lia)
                (slice_from_0 s)) as Hinv.
  destruct (strings.Map_scan f s (strings.range_from s 0 0))
    as [[[j r] width]|]; [|done].
  destruct Hinv as (k & c & -> & Hfix & -> & Hc).
  apply Map_write_Fixed; [eapply range_scalar; done|].
  pose proof (scalar_range _ (f_scalar c Hc)) as Hrange.
  rewrite (proj2 (Z.leb_le 0 (f c))) by lia.
  unfold strings.WriteString, strings.WriteRune. rewrite app_Empty.
  simpl. pose proof (Fixed_written c Hc) as Hw.
  destruct (f c <? utf8.RuneSelf); by apply Fixed_app.
Qed.

Lemma Map_idempotent s : strings.Map f (strings.Map f s) = strings.Map f s.
Proof. apply Map_Fixed, Map_result_Fixed. Qed.

End Mapping.

(** ** [strings.ToUpper] *)

Section Uppercase.

Variable To_UpperCase : Z → Z.

Local Abbreviation unicode_ToUpper := (unicode_ToUpper To_UpperCase).
Local Abbreviation strings_ToUpper := (strings_ToUpper To_UpperCase).
Local Abbreviation process := (process To_UpperCase).

Lemma unicode_ToUpper_ASCII c :
  0 ≤ c ≤ MaxASCII →
  0 ≤ unicode_ToUpper c ≤ MaxASCII ∧
  ¬ (0x61 ≤ unicode_ToUpper c ≤ 0x7A) ∧
  (¬ (0x61 ≤ c ≤ 0x7A) → unicode_ToUpper c = c).
Proof.
  unfold unicode_ToUpper, MaxASCII. intros Hc.
  zsplit; cbn [andb]; lia.
Qed.

Lemma Fixed_ASCII_byte b :
  byte_val b < 0x80 → ¬ (0x61 ≤ byte_val b ≤ 0x7A) →
  Fixed unicode_ToUpper (String b "").
Proof.
  intros Hb Hlow. pose proof (byte_val_range b).
  apply (Fixed_single _ _ (byte_val b)); [done| | |].
  - intros t'. rewrite app_String, app_Empty. by apply Decode_ASCII.
  - left. unfold utf8.RuneError. lia.
  - apply unicode_ToUpper_ASCII; unfold MaxASCII; lia.
Qed.

Lemma scan_ASCII_sticky s hl :
  scan_ASCII s true = (true, hl) → hl = true.
Proof.
  induction s as [|b s IH]; simpl; [congruence|].
  destruct (utf8.RuneSelf <=? byte_val b); [congruence|]. apply IH.
Qed.

Lemma scan_ASCII_Fixed s :
  scan_ASCII s false = (true, false) → Fixed unicode_ToUpper s.
Proof.
  induction s as [|b s IH]; [constructor|]. cbn [scan_ASCII orb].
  unfold utf8.RuneSelf.
  destruct (Z.leb_spec 0x80 (byte_val b)); [congruence|].
  destruct (Z.leb_spec 0x61 (byte_val b));
    destruct (Z.leb_spec (byte_val b) 0x7A); cbn [andb]; intros Hs.
  1: by apply scan_ASCII_sticky in Hs.
  all: change (String b s) with (String b "" +:+ s).
  all: apply Fixed_app; [apply Fixed_ASCII_byte; lia|by apply IH].
Qed.

Lemma upper_ASCII_Fixed s : ∀ b hl hl',
  scan_ASCII s hl = (true, hl') → Fixed unicode_ToUpper b →
  Fixed unicode_ToUpper (upper_ASCII s b).
Proof.
  induction s as [|c s IH]; intros b hl hl' Hs Hb; [done|].
  cbn [scan_ASCII upper_ASCII] in *. unfold utf8.RuneSelf in Hs.
  pose proof (byte_val_range c).
  destruct (Z.leb_spec 0x80 (byte_val c)); [congruence|].
  eapply IH; [done|]. unfold strings.WriteByte.
  apply Fixed_app; [done|].
  destruct (Z.leb_spec 0x61 (byte_val c));
    destruct (Z.leb_spec (byte_val c) 0x7A); cbn [andb].
  1: apply Fixed_ASCII_byte; rewrite byte_val_small; lia.
  all: apply Fixed_ASCII_byte; lia.
Qed.


(** [unicode.To(unicode.UpperCase, r)] of a scalar value above ASCII is
    a scalar value, and it is an upper-case rune: mapping it again
    changes nothing. *)
Hypothesis To_UpperCase_scalar :
  ∀ r, scalar r → MaxASCII < r → scalar (To_UpperCase r).
Hypothesis To_UpperCase_upper :
  ∀ r, scalar r → MaxASCII < r →
    unicode_ToUpper (To_UpperCase r) = To_UpperCase r.

Lemma unicode_ToUpper_scalar c : scalar c → scalar (unicode_ToUpper c).
Proof.
  intros Hc. pose proof (scalar_range _ Hc).
  destruct (Z.le_gt_cases c MaxASCII) as [Hle|Hgt].
  - pose proof (unicode_ToUpper_ASCII c ltac:(lia)) as (? & _).
    apply scalar_intro; unfold MaxASCII in *; lia.
  - unfold unicode_ToUpper.
    rewrite (proj2 (Z.leb_gt c MaxASCII)) by lia.
    by apply To_UpperCase_scalar; [|lia].
Qed.

Lemma unicode_ToUpper_idem c :
  scalar c → unicode_ToUpper (unicode_ToUpper c) = unicode_ToUpper c.
Proof.
  intros Hc. pose proof (scalar_range _ Hc).
  destruct (Z.le_gt_cases c MaxASCII) as [Hle|Hgt].
  - pose proof (unicode_ToUpper_ASCII c ltac:(lia)) as (? & ? & _).
    by apply unicode_ToUpper_ASCII.
  - assert (unicode_ToUpper c = To_UpperCase c) as ->.
    { unfold unicode_ToUpper. by rewrite (proj2 (Z.leb_gt c MaxASCII)) by lia. }
    by apply To_UpperCase_upper; [|lia].
Qed.


Lemma strings_ToUpper_result s : Fixed unicode_ToUpper (strings_ToUpper s).
Proof.
  unfold strings_ToUpper.
  destruct (scan_ASCII s false) as [[] []] eqn:Hs; cbn [negb].
  - eapply upper_ASCII_Fixed; [done|constructor].
  - by apply scan_ASCII_Fixed.
  - apply Map_result_Fixed; auto using unicode_ToUpper_scalar, unicode_ToUpper_idem.
  - apply Map_result_Fixed; auto using unicode_ToUpper_scalar, unicode_ToUpper_idem.
Qed.


End Uppercase.

(** ** The heap operations and the two loops *)

Section Slices.

Variable To_UpperCase : Z → Z.
Variable growcap : nat → nat → nat.

Local Abbreviation process := (process To_UpperCase).
Local Abbreviation append := (append growcap).
Local Abbreviation ProcessWords := (ProcessWords To_UpperCase growcap).
Local Abbreviation ProcessWordsFaster :=
  (ProcessWordsFaster To_UpperCase growcap).

(** [growslice] returns a capacity that fits the length asked for. *)
Hypothesis growcap_fits : ∀ oldCap newLen, (newLen ≤ growcap oldCap newLen)%nat.

Lemma owned_Words_in n0 h s out :
  owned n0 h s out → Words_in h s = Some out.
Proof.
  intros (Hlen & Hcap & Hdata). unfold Words_in, load_Words.
  destruct (data s) as [|l off].
  - assert (len s = 0)%nat by lia. rewrite decide_True by done.
    simpl. f_equal. symmetry. apply length_zero_iff_nil. lia.
  - destruct Hdata as (-> & _ & a & -> & Ha & Htake).
    rewrite decide_True by lia. simpl. by rewrite drop_0, Htake.
Qed.

Lemma append_spec n0 h s out w :
  owned n0 h s out → (n0 ≤ length h)%nat →
  ∃ s' h', append s w h = Some (s', h') ∧
    owned n0 h' s' (out ++ [w]) ∧
    take n0 h' = take n0 h ∧
    (length h ≤ length h')%nat ∧
    (∀ l a, h !! l = Some (StringArray a) → h' !! l = Some (StringArray a)) ∧
    ((len s < cap s)%nat →
       length h' = length h ∧ data s' = data s ∧ cap s' = cap s) ∧
    ((cap s ≤ len s)%nat →
       length h' = S (length h) ∧ cap s' = growcap (cap s) (len s + 1)).
Proof.
  intros Hown Hn0. pose proof (owned_Words_in _ _ _ _ Hown) as Hin.
  destruct Hown as (Hlen & Hcap & Hdata).
  unfold append. run.
  destruct (decide (cap s < len s + 1)%nat) as [Hfull|Hroom].
  - (* the array is full: growslice *)
    unfold growslice. run.
    unfold Words_in in Hin. destruct (load_Words s h) as [[elems h1]|] eqn:Hload;
      [|done]. simpl in Hin. injection Hin as ->.
    assert (h1 = h) as ->.
    { unfold load_Words in Hload. repeat case_match; congruence. }
    pose proof (growcap_fits (cap s) (len s + 1)) as Hfit.
    set (newcap := growcap (cap s) (len s + 1)) in *.
    set (arr := out ++ replicate (newcap - len s) zeroWord).
    assert (length arr = newcap) as Harr.
    { unfold arr. rewrite length_app, length_replicate. lia. }
    unfold mallocgc. simpl.
    rewrite list_lookup_middle by done.
    rewrite decide_True by (rewrite Harr; lia). simpl.
    eexists _, _. split; [done|].
    assert (<[length h:=WordArray (<[len s:=w]> arr)]> (h ++ [WordArray arr])
            = h ++ [WordArray (<[len s:=w]> arr)]) as ->.
    { rewrite insert_app_r_alt by done. by rewrite Nat.sub_diag. }
    split_and!.
    + split_and!; simpl.
      * rewrite length_app. simpl. lia.
      * lia.
      * split_and!; [done|done|]. exists (<[len s:=w]> arr). split_and!.
        -- by rewrite list_lookup_middle.
        -- by rewrite length_insert.
        -- unfold arr. rewrite insert_app_r_alt by lia.
           rewrite Hlen, Nat.sub_diag.
           destruct (newcap - len s)%nat as [|k] eqn:Hk; [lia|]. simpl.
           replace (len s + 1)%nat with (length out + 1)%nat by lia.
           rewrite take_app_add'; done.
    + by rewrite take_app_le.
    + rewrite length_app; simpl; lia.
    + intros l a Hl. rewrite lookup_app_l; [done|]. by eapply lookup_lt_Some.
    + lia.
    + intros _. rewrite length_app. simpl. split; [lia|done].
  - (* room left: the element is written in place *)
    destruct (data s) as [|l off] eqn:Hd; [lia|].
    destruct Hdata as (-> & Hl & a & Ha & Hacap & Htake). simpl.
    rewrite Ha. rewrite decide_True by lia. simpl.
    eexists _, _. split; [done|].
    pose proof (lookup_lt_Some _ _ _ Ha) as Hlt.
    split_and!.
    + split_and!; simpl.
      * rewrite length_app. simpl. lia.
      * lia.
      * split_and!; [done|done|].
        exists (<[len s:=w]> a). split_and!.
        -- by rewrite list_lookup_insert_eq.
        -- by rewrite length_insert.
        -- replace (len s + 1)%nat with (S (len s)) by lia.
           erewrite take_S_r; [|apply list_lookup_insert_eq; lia].
           rewrite take_insert_ge by lia. by rewrite Htake.
    + by rewrite take_insert_ge.
    + by rewrite length_insert.
    + intros l' a' Hl'. rewrite list_lookup_insert_ne; [done|]. congruence.
    + intros _. by rewrite length_insert.
    + lia.
Qed.

Lemma strings_in_length h raw input :
  strings_in h raw = Some input → length input = len raw.
Proof.
  unfold strings_in. intros H. repeat case_match; simplify_eq; simpl; [lia|].
  rewrite length_take, length_drop. lia.
Qed.

Lemma strings_in_frame h h' raw input :
  strings_in h raw = Some input →
  (∀ l a, h !! l = Some (StringArray a) → h' !! l = Some (StringArray a)) →
  strings_in h' raw = Some input.
Proof.
  unfold strings_in. intros H Hfr. destruct (data raw) as [|l off]; [done|].
  destruct (h !! l) as [[a|a]|] eqn:Hl; [|done..].
  by rewrite (Hfr _ _ Hl).
Qed.

Lemma index_string_spec h raw input i w :
  strings_in h raw = Some input → input !! i = Some w →
  index_string raw i h = Some (w, h).
Proof.
  intros Hin Hi. pose proof (strings_in_length _ _ _ Hin) as Hlen.
  pose proof (lookup_lt_Some _ _ _ Hi) as Hlt.
  unfold strings_in in Hin. unfold index_string.
  rewrite decide_True by lia.
  destruct (data raw) as [|l off]; [case_decide; simplify_eq; simpl in *; lia|].
  destruct (h !! l) as [[a|a]|]; [|done..].
  case_decide; [|done]. simplify_eq.
  rewrite lookup_take_lt, lookup_drop in Hi by lia. by rewrite Hi.
Qed.

(** The loop of both functions, from iteration [i] with [n] to go. *)
Lemma for_range_from_spec raw input n0 n : ∀ i words h out,
  strings_in h raw = Some input → (i + n = len raw)%nat →
  owned n0 h words out → (n0 ≤ length h)%nat →
  ∃ words' h',
    for_range_from raw i n
      (λ i w words, append words (mkWord (process w) (Z.of_nat i)))
      words h = Some (words', h') ∧
    owned n0 h' words'
      (out ++ imap (λ j w, mkWord (process w) (Z.of_nat (i + j))) (drop i input)) ∧
    take n0 h' = take n0 h ∧
    (length h ≤ length h')%nat ∧
    strings_in h' raw = Some input ∧
    ((len words + n ≤ cap words)%nat →
       length h' = length h ∧ data words' = data words ∧
       cap words' = cap words) ∧
    (length h' = length h → cap words' = cap words).
Proof.
  induction n as [|n IH]; intros i words h out Hin Hi Hown Hn0.
  - exists words, h. pose proof (strings_in_length _ _ _ Hin).
    rewrite drop_ge by lia. simpl. rewrite app_nil_r. by split_and!.
  - pose proof (strings_in_length _ _ _ Hin) as Hlen.
    destruct (lookup_lt_is_Some_2 input i) as [w Hw]; [lia|].
    simpl. run. rewrite (index_string_spec _ _ _ _ _ Hin Hw).
    destruct (append_spec n0 h words out (mkWord (process w) (Z.of_nat i))
                Hown Hn0)
      as (words1 & h1 & -> & Hown1 & Htake1 & Hle1 & Hfr1 & Hroom1 & Hgrow1).
    destruct (IH (S i) words1 h1 _ (strings_in_frame _ _ _ _ Hin Hfr1)
                ltac:(lia) Hown1 ltac:(lia))
      as (words' & h' & -> & Hown' & Htake' & Hle' & Hin' & Hroom' & Hsame').
    exists words', h'. split; [done|]. split_and!.
    + rewrite (drop_S _ _ _ Hw), imap_cons. rewrite Nat.add_0_r.
      rewrite <- app_assoc in Hown'. simpl in Hown'.
      erewrite (imap_ext _ (λ j w0, mkWord (process w0) (Z.of_nat (S i + j))));
        [done|].
      intros j x _. simpl. do 2 f_equal. lia.
    + by rewrite Htake'.
    + lia.
    + done.
    + intros Hcap. destruct Hown as (? & ? & _).
      destruct Hown1 as (Hl1 & _). rewrite length_app in Hl1; simpl in Hl1.
      destruct Hroom1 as (? & ? & ?); [lia|].
      destruct Hroom' as (? & ? & ?); [lia|]. split_and!; congruence.
    + intros Hsame. destruct Hown as (? & ? & _).
      destruct (decide (len words < cap words)%nat) as [Hlt|Hge].
      * destruct Hroom1 as (? & ? & ?); [done|].
        rewrite Hsame'; [done|lia].
      * destruct Hgrow1 as (? & ?); lia.
Qed.

Lemma make_Word_spec h c :
  ∃ words h', make_Word 0 c h = Some (words, h') ∧
    len words = 0%nat ∧ cap words = c ∧
    owned (length h) h' words [] ∧ take (length h) h' = h ∧
    length h' = (length h + (if decide (c = 0%nat) then 0 else 1))%nat ∧
    (∀ l a, h !! l = Some (StringArray a) → h' !! l = Some (StringArray a)).
Proof.
  unfold make_Word. rewrite decide_False by lia.
  destruct (decide (c = 0%nat)) as [->|Hc].
  - exists (Slice zerobase 0 0), h. run. split_and!; try done.
    by rewrite take_ge.
  - run. unfold mallocgc. eexists _, _. split; [done|]. simpl. split_and!; try done.
    + split_and!; simpl; [done|lia|]. split_and!; [done|done|].
      eexists. split_and!; [by rewrite list_lookup_middle| |done].
      by rewrite length_replicate.
    + by rewrite take_app_length.
    + rewrite length_app. simpl. lia.
    + intros l a Hl. rewrite lookup_app_l; [done|]. by eapply lookup_lt_Some.
Qed.

(** One statement for both functions: [c] is the capacity given to
    [make]. *)
Lemma transform_spec c h raw input :
  strings_in h raw = Some input →
  ∃ words0 h0 words h',
    make_Word 0 c h = Some (words0, h0) ∧
    for_range raw
      (λ i w words, append words (mkWord (process w) (Z.of_nat i)))
      words0 h0 = Some (words, h') ∧
    owned (length h) h' words (Transform_spec process input) ∧
    take (length h) h' = h ∧
    strings_in h' raw = Some input ∧
    len words0 = 0%nat ∧ cap words0 = c ∧
    length h0 = (length h + (if decide (c = 0%nat) then 0 else 1))%nat ∧
    (length h0 ≤ length h')%nat ∧
    ((len raw ≤ c)%nat →
       length h' = length h0 ∧ data words = data words0 ∧
       cap words = cap words0).
Proof.
  intros Hin.
  destruct (make_Word_spec h c)
    as (words0 & h0 & Hmk & Hlen0 & Hcap0 & Hown0 & Htake0 & Hh0 & Hfr0).
  destruct (for_range_from_spec raw input (length h) (len raw) 0 words0 h0 []
              (strings_in_frame _ _ _ _ Hin Hfr0) ltac:(lia) Hown0 ltac:(lia))
    as (words & h' & Hloop & Hown & Htake & Hle & Hin' & Hroom & _).
  exists words0, h0, words, h'. rewrite drop_0 in Hown. simpl in Hown.
  split_and!; try done.
  - by rewrite Htake.
  - intros Hc. apply Hroom. lia.
Qed.

Lemma ProcessWords_spec h raw input :
  strings_in h raw = Some input →
  ∃ words h', ProcessWords raw h = Some (words, h') ∧
    owned (length h) h' words (Transform_spec process input) ∧
    take (length h) h' = h ∧ strings_in h' raw = Some input.
Proof.
  intros Hin.
  destruct (transform_spec 0 h raw input Hin)
    as (words0 & h0 & words & h' & Hmk & Hloop & Hown & Htake & Hin' & _).
  exists words, h'. split_and!; try done.
  unfold ProcessWords, mbind, M_bind. by rewrite Hmk.
Qed.

Lemma ProcessWordsFaster_spec h raw input :
  strings_in h raw = Some input →
  ∃ words h', ProcessWordsFaster raw h = Some (words, h') ∧
    owned (length h) h' words (Transform_spec process input) ∧
    take (length h) h' = h ∧ strings_in h' raw = Some input.
Proof.
  intros Hin.
  destruct (transform_spec (len raw) h raw input Hin)
    as (words0 & h0 & words & h' & Hmk & Hloop & Hown & Htake & Hin' & _).
  exists words, h'. split_and!; try done.
  unfold ProcessWordsFaster, mbind, M_bind. by rewrite Hmk.
Qed.

Lemma output_ProcessWords h raw input :
  strings_in h raw = Some input →
  output ProcessWords raw h = Some (Transform_spec process input).
Proof.
  intros Hin. destruct (ProcessWords_spec h raw input Hin)
    as (words & h' & Hrun & Hown & _).
  unfold output. rewrite Hrun. by eapply owned_Words_in.
Qed.

Lemma output_ProcessWordsFaster h raw input :
  strings_in h raw = Some input →
  output ProcessWordsFaster raw h = Some (Transform_spec process input).
Proof.
  intros Hin. destruct (ProcessWordsFaster_spec h raw input Hin)
    as (words & h' & Hrun & Hown & _).
  unfold output. rewrite Hrun. by eapply owned_Words_in.
Qed.

Lemma Transform_spec_lookup (up : string → string) input i w :
  input !! i = Some w →
  Transform_spec up input !! i = Some (mkWord (up w) (Z.of_nat i)).
Proof. intros Hi. unfold Transform_spec. by rewrite list_lookup_imap, Hi. Qed.

Lemma Transform_spec_length (up : string → string) input :
  length (Transform_spec up input) = length input.
Proof. apply length_imap. Qed.

Lemma Transform_spec_inv (up : string → string) input i r :
  Transform_spec up input !! i = Some r →
  ∃ w, input !! i = Some w ∧ r = mkWord (up w) (Z.of_nat i).
Proof.
  unfold Transform_spec. rewrite list_lookup_imap.
  destruct (input !! i) as [w|]; [|done]. intros [= <-]. by exists w.
Qed.

Lemma Transform_spec_index (up : string → string) input :
  index <$> Transform_spec up input = Z.of_nat <$> seq 0 (length input).
Proof.
  apply list_eq. intros i. unfold Transform_spec.
  rewrite !list_lookup_fmap, list_lookup_imap.
  destruct (input !! i) as [w|] eqn:Hi; simpl.
  - rewrite lookup_seq_lt by by eapply lookup_lt_Some. done.
  - rewrite lookup_seq_ge by by apply lookup_ge_None. done.
Qed.

Lemma Transform_spec_word (up : string → string) input :
  word <$> Transform_spec up input = up <$> input.
Proof.
  apply list_eq. intros i. unfold Transform_spec.
  rewrite !list_lookup_fmap, list_lookup_imap.
  by destruct (input !! i).
Qed.

Lemma process_empty : process "" = "".
Proof. reflexivity. Qed.

(** Both functions at once: the call returns, the slice returned owns the
    records of the specification, and the heap it was given is a prefix
    of the heap it leaves. *)
Lemma call_spec f h raw input :
  f = ProcessWords ∨ f = ProcessWordsFaster →
  strings_in h raw = Some input →
  ∃ words h', f raw h = Some (words, h') ∧
    owned (length h) h' words (Transform_spec process input) ∧
    Words_in h' words = Some (Transform_spec process input) ∧
    len words = length input ∧
    take (length h) h' = h ∧ strings_in h' raw = Some input.
Proof.
  intros Hf Hin.
  assert (∃ words h', f raw h = Some (words, h') ∧
    owned (length h) h' words (Transform_spec process input) ∧
    take (length h) h' = h ∧ strings_in h' raw = Some input)
    as (words & h' & Hrun & Hown & Htake & Hin').
  { destruct Hf as [->| ->];
      [by apply ProcessWords_spec|by apply ProcessWordsFaster_spec]. }
  exists words, h'. split_and!; try done.
  - by eapply owned_Words_in.
  - destruct Hown as (Hlen & _). by rewrite <- Hlen, Transform_spec_length.
Qed.

(** C1. For every input sequence, [ProcessWordsFaster] (the sized
    transform) and [ProcessWords] (the unsized one) return the same output
    sequence: the same records, values and positions, in the same order,
    hence of the same length. *)
Theorem ProcessWordsFaster_same_output h rawWords input :
  strings_in h rawWords = Some input →
  ∃ out,
    output ProcessWords rawWords h = Some out ∧
    output ProcessWordsFaster rawWords h = Some out.
Proof.
  intros Hin. exists (Transform_spec process input).
  split; [by apply output_ProcessWords|by apply output_ProcessWordsFaster].
Qed.


(** C3. For every input sequence, the empty one included, the slice either
    transform returns has the length of the input, and so has the sequence
    it holds; the empty input gives the empty output. *)
Theorem output_length h rawWords input :
  strings_in h rawWords = Some input →
  (∃ words h' out,
     ProcessWords rawWords h = Some (words, h') ∧
     Words_in h' words = Some out ∧
     len words = length input ∧ length out = length input ∧
     (input = [] → out = [])) ∧
  (∃ words h' out,
     ProcessWordsFaster rawWords h = Some (words, h') ∧
     Words_in h' words = Some out ∧
     len words = length input ∧ length out = length input ∧
     (input = [] → out = [])).
Proof.
  intros Hin.
  assert (∀ f, f = ProcessWords ∨ f = ProcessWordsFaster →
    ∃ words h' out, f rawWords h = Some (words, h') ∧
      Words_in h' words = Some out ∧
      len words = length input ∧ length out = length input ∧
      (input = [] → out = [])) as Hboth.
  { intros f Hf.
    destruct (call_spec f h rawWords input Hf Hin)
      as (words & h' & Hrun & _ & Hout & Hlen & _).
    exists words, h', (Transform_spec process input).
    split_and!; try done; [apply Transform_spec_length|by intros ->]. }
  split; apply Hboth; auto.
Qed.

(** C4. For every input sequence, the positions stored in the output of
    either transform are 0, 1, 2, ... in this order: each is the index of
    the input element the record was made from, they are strictly
    increasing and pairwise distinct, and the values follow the order of
    the input. *)
Theorem output_positions h rawWords input :
  strings_in h rawWords = Some input →
  ∃ out,
    output ProcessWords rawWords h = Some out ∧
    output ProcessWordsFaster rawWords h = Some out ∧
    index <$> out = Z.of_nat <$> seq 0 (length input) ∧
    word <$> out = process <$> input ∧
    NoDup (index <$> out) ∧
    (∀ i j ri rj, out !! i = Some ri → out !! j = Some rj →
       (i < j)%nat → index ri < index rj).
Proof.
  intros Hin. exists (Transform_spec process input). split_and!.
  - by apply output_ProcessWords.
  - by apply output_ProcessWordsFaster.
  - apply Transform_spec_index.
  - apply Transform_spec_word.
  - rewrite Transform_spec_index.
    apply (NoDup_fmap_2 Z.of_nat), NoDup_seq.
  - intros i j ri rj (wi & _ & ->)%Transform_spec_inv
      (wj & _ & ->)%Transform_spec_inv Hij. simpl. lia.
Qed.

(** C5. [process] is a total function on strings and the program has no
    error result.  The one place where [strings.ToUpper] could panic, the
    slice [s[i+width:]] inside [strings.Map], is within the string for
    every string; and for every input sequence neither transform panics:
    each returns a sequence with one record for every input element, made
    from that element, never a partial result. *)
Theorem transforms_never_fail h rawWords input :
  strings_in h rawWords = Some input →
  (∀ s i r width,
     strings.Map_scan (unicode_ToUpper To_UpperCase) s (strings.range s)
     = Some (i, r, width) →
     0 < width ∧ (i + Z.to_nat width ≤ String.length s)%nat) ∧
  (∃ words h' out,
     ProcessWords rawWords h = Some (words, h') ∧
     Words_in h' words = Some out ∧
     Forall2 (λ w r, word r = process w) input out) ∧
  (∃ words h' out,
     ProcessWordsFaster rawWords h = Some (words, h') ∧
     Words_in h' words = Some out ∧
     Forall2 (λ w r, word r = process w) input out).
Proof.
  intros Hin.
  assert (∀ f, f = ProcessWords ∨ f = ProcessWordsFaster →
    ∃ words h' out, f rawWords h = Some (words, h') ∧
      Words_in h' words = Some out ∧
      Forall2 (λ w r, word r = process w) input out) as Hboth.
  { intros f Hf.
    destruct (call_spec f h rawWords input Hf Hin)
      as (words & h' & Hrun & _ & Hout & _).
    exists words, h', (Transform_spec process input).
    split_and!; try done.
    apply Forall2_same_length_lookup. split.
    - by rewrite Transform_spec_length.
    - intros i w r Hw Hr. rewrite (Transform_spec_lookup _ _ _ _ Hw) in Hr.
      by injection Hr as <-. }
  split_and!; [apply Map_slices_in_range|apply Hboth; auto..].
Qed.

(** C6. A call of either transform leaves the input sequence as it was and
    changes nothing that existed before the call: the heap after the call
    is the heap before it followed by the arrays allocated by the call. *)
Theorem input_unchanged h rawWords input :
  strings_in h rawWords = Some input →
  (∃ words h' new,
     ProcessWords rawWords h = Some (words, h') ∧
     strings_in h' rawWords = Some input ∧ h' = h ++ new ∧
     ∀ l, (l < length h)%nat → h' !! l = h !! l) ∧
  (∃ words h' new,
     ProcessWordsFaster rawWords h = Some (words, h') ∧
     strings_in h' rawWords = Some input ∧ h' = h ++ new ∧
     ∀ l, (l < length h)%nat → h' !! l = h !! l).
Proof.
  intros Hin.
  assert (∀ f, f = ProcessWords ∨ f = ProcessWordsFaster →
    ∃ words h' new, f rawWords h = Some (words, h') ∧
      strings_in h' rawWords = Some input ∧ h' = h ++ new ∧
      ∀ l, (l < length h)%nat → h' !! l = h !! l) as Hboth.
  { intros f Hf.
    destruct (call_spec f h rawWords input Hf Hin)
      as (words & h' & Hrun & _ & _ & _ & Htake & Hin').
    exists words, h', (drop (length h) h').
    assert (h' = h ++ drop (length h) h') as Happ.
    { rewrite <- Htake at 1. by rewrite take_drop. }
    split_and!; try done.
    intros l Hl. rewrite Happ. by apply lookup_app_l. }
  split; apply Hboth; auto.
Qed.

(** The unsized transform allocates on its first [append], and again
    unless the capacity chosen then holds the whole input. *)
Lemma ProcessWords_allocations h raw input :
  strings_in h raw = Some input → input ≠ [] →
  ∃ n, allocations (ProcessWords raw) h = Some n ∧ (1 ≤ n)%nat ∧
       ((growcap 0 1 < length input)%nat → (2 ≤ n)%nat).
Proof.
  intros Hin Hne. pose proof (strings_in_length _ _ _ Hin) as Hlen.
  destruct input as [|w0 rest]; [done|]. simpl in Hlen.
  unfold allocations, ProcessWords, mbind, M_bind, make_Word.
  rewrite decide_False by lia. rewrite decide_True by done.
  unfold mret, M_ret, for_range. rewrite <- Hlen. cbn [for_range_from].
  unfold mbind, M_bind.
  rewrite (index_string_spec _ _ _ 0%nat w0 Hin eq_refl).
  destruct (append_spec (length h) h (Slice zerobase 0 0) []
              (mkWord (process w0) (Z.of_nat 0)))
    as (words1 & h1 & -> & Hown1 & _ & _ & Hfr1 & _ & Hgrow1);
    [by split_and!|done|].
  destruct Hgrow1 as (Hh1 & Hcap1); [simpl; lia|]. simpl in Hcap1.
  destruct (for_range_from_spec raw (w0 :: rest) (length h) (length rest) 1
              words1 h1 _ (strings_in_frame _ _ _ _ Hin Hfr1)
              ltac:(lia) Hown1 ltac:(lia))
    as (words' & h' & -> & Hown' & _ & Hle' & _ & _ & Hsame').
  exists (length h' - length h)%nat. split_and!; [done|lia|].
  intros Hsmall. destruct Hown' as (Hlen' & Hcap' & _).
  rewrite length_app, length_imap, length_drop in Hlen'.
  simpl in Hlen', Hsmall.
  destruct (decide (length h' = length h1)) as [Heq|Hneq]; [|lia].
  specialize (Hsame' Heq). lia.
Qed.

(** C7. On a non-empty input [ProcessWordsFaster] reserves, before the
    loop writes any element, a backing array whose capacity is the length
    of the input: this is its one allocation; the loop allocates nothing,
    and the slice keeps its array and capacity.  [ProcessWords] allocates
    at least once, and more than once unless the first capacity chosen by
    [growslice] already holds the whole input. *)
Theorem ProcessWordsFaster_one_allocation h rawWords input :
  strings_in h rawWords = Some input → input ≠ [] →
  (∃ words0 h0 words h',
     make_Word 0 (len rawWords) h = Some (words0, h0) ∧
     len words0 = 0%nat ∧ cap words0 = length input ∧
     length h0 = S (length h) ∧
     for_range rawWords
       (λ i w words, append words (mkWord (process w) (Z.of_nat i)))
       words0 h0 = Some (words, h') ∧
     length h' = length h0 ∧ data words = data words0 ∧
     cap words = cap words0 ∧
     ProcessWordsFaster rawWords h = Some (words, h')) ∧
  allocations (ProcessWordsFaster rawWords) h = Some 1%nat ∧
  (∃ n, allocations (ProcessWords rawWords) h = Some n ∧ (1 ≤ n)%nat ∧
        ((growcap 0 1 < length input)%nat → (2 ≤ n)%nat)).
Proof.
  intros Hin Hne. pose proof (strings_in_length _ _ _ Hin) as Hlen.
  assert (len rawWords ≠ 0%nat) as Hlen0.
  { rewrite <- Hlen. by destruct input. }
  destruct (transform_spec (len rawWords) h rawWords input Hin)
    as (words0 & h0 & words & h' & Hmk & Hloop & _ & _ & _ & Hl0 & Hc0 & Hh0
        & _ & Hroom).
  rewrite decide_False in Hh0 by done.
  destruct Hroom as (Hh' & Hdata & Hcap); [lia|].
  assert (ProcessWordsFaster rawWords h = Some (words, h')) as Hrun.
  { unfold ProcessWordsFaster, mbind, M_bind. by rewrite Hmk. }
  split_and!.
  - exists words0, h0, words, h'. split_and!; try done; lia.
  - unfold allocations. rewrite Hrun. f_equal. lia.
  - by apply ProcessWords_allocations.
Qed.

(** C9. On the input ["the", "Whale", "IS", "big"] either transform
    returns [{"THE",0}, {"WHALE",1}, {"IS",2}, {"BIG",3}], and on the input
    ["a"] either returns [{"A",0}]. *)
Theorem whale_scenario h1 rawWords1 h2 rawWords2 :
  strings_in h1 rawWords1 = Some ["the"; "Whale"; "IS"; "big"] →
  strings_in h2 rawWords2 = Some ["a"] →
  let whale := [mkWord "THE" 0; mkWord "WHALE" 1; mkWord "IS" 2;
                mkWord "BIG" 3] in
  output ProcessWords rawWords1 h1 = Some whale ∧
  output ProcessWordsFaster rawWords1 h1 = Some whale ∧
  output ProcessWords rawWords2 h2 = Some [mkWord "A" 0] ∧
  output ProcessWordsFaster rawWords2 h2 = Some [mkWord "A" 0].
Proof.
  intros Hin1 Hin2 whale.
  rewrite (output_ProcessWords _ _ _ Hin1), (output_ProcessWords _ _ _ Hin2).
  rewrite (output_ProcessWordsFaster _ _ _ Hin1),
    (output_ProcessWordsFaster _ _ _ Hin2).
  by split_and!.
Qed.

(** C10. An output element depends only on the input element at its index
    and on the index: two input sequences that agree at [i] give, under
    either transform, the same record at [i]; an empty string at [i] gives
    the record [{"", i}]. *)
Theorem element_depends_on_own_input h1 rawWords1 input1 h2 rawWords2 input2 i w :
  strings_in h1 rawWords1 = Some input1 →
  strings_in h2 rawWords2 = Some input2 →
  input1 !! i = Some w → input2 !! i = Some w →
  ∃ r,
    (output ProcessWords rawWords1 h1 ≫= (.!! i)) = Some r ∧
    (output ProcessWords rawWords2 h2 ≫= (.!! i)) = Some r ∧
    (output ProcessWordsFaster rawWords1 h1 ≫= (.!! i)) = Some r ∧
    (output ProcessWordsFaster rawWords2 h2 ≫= (.!! i)) = Some r ∧
    r = mkWord (process w) (Z.of_nat i) ∧
    (w = "" → r = mkWord "" (Z.of_nat i)).
Proof.
  intros Hin1 Hin2 Hi1 Hi2. exists (mkWord (process w) (Z.of_nat i)).
  rewrite (output_ProcessWords _ _ _ Hin1), (output_ProcessWords _ _ _ Hin2).
  rewrite (output_ProcessWordsFaster _ _ _ Hin1),
    (output_ProcessWordsFaster _ _ _ Hin2).
  simpl. rewrite !(Transform_spec_lookup _ _ _ w) by done.
  split_and!; try done. by intros ->.
Qed.

(** ** Further properties of the two transforms *)

Lemma Words_in_app h k s out :
  Words_in h s = Some out → Words_in (h ++ k) s = Some out.
Proof.
  unfold Words_in, load_Words. destruct (data s) as [|l off].
  { by case_decide. }
  destruct (h !! l) as [[a|a]|] eqn:Hl; try done.
  rewrite (lookup_app_l_Some _ _ _ _ Hl). by case_decide.
Qed.

Lemma strings_in_app h k s input :
  strings_in h s = Some input → strings_in (h ++ k) s = Some input.
Proof.
  intros Hin. apply (strings_in_frame h); [done|].
  intros l a Hl. by apply lookup_app_l_Some.
Qed.

(** X1. On an empty input neither transform allocates: each returns the
    slice of length and capacity zero that points to [zerobase], and the
    heap is left as it was. *)
Theorem empty_input_allocates_nothing h rawWords :
  strings_in h rawWords = Some [] →
  ProcessWords rawWords h = Some (Slice zerobase 0 0, h) ∧
  ProcessWordsFaster rawWords h = Some (Slice zerobase 0 0, h).
Proof.
  intros Hin. pose proof (strings_in_length _ _ _ Hin) as Hlen.
  simpl in Hlen. unfold ProcessWords, ProcessWordsFaster, for_range.
  rewrite <- Hlen. done.
Qed.

(** X2. On a non-empty input [ProcessWordsFaster] allocates exactly one
    array, which holds exactly the records of the output and nothing else:
    the slice returned is full, its capacity is its length. *)
Theorem ProcessWordsFaster_result h rawWords input :
  strings_in h rawWords = Some input → input ≠ [] →
  ProcessWordsFaster rawWords h
  = Some (Slice (element (length h) 0) (length input) (length input),
          h ++ [WordArray (Transform_spec process input)]).
Proof.
  intros Hin Hne. pose proof (strings_in_length _ _ _ Hin) as Hlen.
  assert (len rawWords ≠ 0%nat) as Hlen0.
  { rewrite <- Hlen. by destruct input. }
  destruct (transform_spec (len rawWords) h rawWords input Hin)
    as (words0 & h0 & words & h' & Hmk & Hloop & Hown & Htake & _ & _ & Hc0
        & Hh0 & _ & Hroom).
  rewrite decide_False in Hh0 by done.
  destruct Hroom as (Hh' & _ & Hcap); [lia|].
  unfold ProcessWordsFaster, mbind, M_bind. rewrite Hmk, Hloop.
  destruct Hown as (Hl & _ & Hdata). rewrite Transform_spec_length in Hl.
  destruct words as [[|l off] n c]; simpl in *; [lia|].
  destruct Hdata as (-> & Hge & a & Ha & Hac & Hta).
  pose proof (lookup_lt_Some _ _ _ Ha) as Hlt.
  assert (l = length h) as -> by lia.
  assert (a = Transform_spec process input) as ->.
  { rewrite <- Hta. rewrite take_ge; [done|lia]. }
  do 2 f_equal; [f_equal; lia|].
  rewrite <- (take_drop (length h) h'), Htake. f_equal.
  assert (length (drop (length h) h') = 1%nat) as Hone
    by (rewrite length_drop; lia).
  assert (drop (length h) h' !! 0%nat
          = Some (WordArray (Transform_spec process input))) as Hd.
  { by rewrite lookup_drop, Nat.add_0_r. }
  destruct (drop (length h) h') as [|x [|y k]]; simpl in *; try lia.
  by injection Hd as ->.
Qed.

(** X3. The slice either transform returns for a non-empty input starts at
    the first element of an array that did not exist before the call: it
    shares no array with the input or with anything the caller had. *)
Theorem output_array_is_fresh h rawWords input :
  strings_in h rawWords = Some input → input ≠ [] →
  (∃ words h' l a,
     ProcessWords rawWords h = Some (words, h') ∧
     data words = element l 0 ∧ h !! l = None ∧
     h' !! l = Some (WordArray a) ∧ length a = cap words ∧
     take (len words) a = Transform_spec process input) ∧
  (∃ words h' l a,
     ProcessWordsFaster rawWords h = Some (words, h') ∧
     data words = element l 0 ∧ h !! l = None ∧
     h' !! l = Some (WordArray a) ∧ length a = cap words ∧
     take (len words) a = Transform_spec process input).
Proof.
  intros Hin Hne.
  assert (∀ f, f = ProcessWords ∨ f = ProcessWordsFaster →
    ∃ words h' l a, f rawWords h = Some (words, h') ∧
      data words = element l 0 ∧ h !! l = None ∧
      h' !! l = Some (WordArray a) ∧ length a = cap words ∧
      take (len words) a = Transform_spec process input) as Hboth.
  { intros f Hf.
    destruct (call_spec f h rawWords input Hf Hin)
      as (words & h' & Hrun & Hown & _ & Hlen & _).
    destruct Hown as (_ & Hcap & Hdata).
    destruct (data words) as [|l off] eqn:Hd.
    { destruct input; [done|]. simpl in Hlen. lia. }
    destruct Hdata as (-> & Hge & a & Ha & Hac & Hta).
    exists words, h', l, a. split_and!; try done.
    by apply lookup_ge_None. }
  split; apply Hboth; auto.
Qed.

(** X4. Calls do not interfere: after a call of either transform on one
    input and then a call of either transform on another (or the same)
    input, both output sequences are held by the slices returned, and the
    inputs are unchanged. *)
Theorem calls_do_not_interfere f g h rawWords1 input1 rawWords2 input2 :
  f = ProcessWords ∨ f = ProcessWordsFaster →
  g = ProcessWords ∨ g = ProcessWordsFaster →
  strings_in h rawWords1 = Some input1 →
  strings_in h rawWords2 = Some input2 →
  ∃ words1 h1 words2 h2,
    f rawWords1 h = Some (words1, h1) ∧
    g rawWords2 h1 = Some (words2, h2) ∧
    Words_in h2 words1 = Some (Transform_spec process input1) ∧
    Words_in h2 words2 = Some (Transform_spec process input2) ∧
    strings_in h2 rawWords1 = Some input1 ∧
    strings_in h2 rawWords2 = Some input2.
Proof.
  intros Hf Hg Hin1 Hin2.
  destruct (call_spec f h rawWords1 input1 Hf Hin1)
    as (words1 & h1 & Hrun1 & _ & Hout1 & _ & Htake1 & Hin1').
  assert (h1 = h ++ drop (length h) h1) as Hh1.
  { rewrite <- Htake1 at 1. by rewrite take_drop. }
  assert (strings_in h1 rawWords2 = Some input2) as Hin2'.
  { rewrite Hh1. by apply strings_in_app. }
  destruct (call_spec g h1 rawWords2 input2 Hg Hin2')
    as (words2 & h2 & Hrun2 & _ & Hout2 & _ & Htake2 & Hin2'').
  assert (h2 = h1 ++ drop (length h1) h2) as Hh2.
  { rewrite <- Htake2 at 1. by rewrite take_drop. }
  exists words1, h1, words2, h2. split_and!; try done.
  - rewrite Hh2. by apply Words_in_app.
  - rewrite Hh2. by apply strings_in_app.
Qed.

Lemma appends_le g n : ∀ k c, ((appends g k c n).2 ≤ n)%nat.
Proof.
  induction n as [|n IH]; intros k c; simpl; [done|].
  case_decide.
  - specialize (IH (k + 1)%nat (g c (k + 1)%nat)).
    destruct (appends g (k + 1) (g c (k + 1)%nat) n). simpl in *. lia.
  - specialize (IH (k + 1)%nat c). lia.
Qed.

(** The loop against [appends]: the capacity and the growth of the heap
    are those the capacity test alone gives. *)
Lemma for_range_from_appends raw input n0 n : ∀ i words h out,
  strings_in h raw = Some input → (i + n = len raw)%nat →
  owned n0 h words out → (n0 ≤ length h)%nat →
  ∃ words' h',
    for_range_from raw i n
      (λ i w words, append words (mkWord (process w) (Z.of_nat i)))
      words h = Some (words', h') ∧
    cap words' = (appends growcap (len words) (cap words) n).1 ∧
    length h' = (length h + (appends growcap (len words) (cap words) n).2)%nat.
Proof.
  induction n as [|n IH]; intros i words h out Hin Hi Hown Hn0.
  - exists words, h. simpl. split_and!; [done|done|lia].
  - pose proof (strings_in_length _ _ _ Hin) as Hlen.
    destruct (lookup_lt_is_Some_2 input i) as [w Hw]; [lia|].
    cbn [for_range_from appends]. unfold mbind, M_bind.
    rewrite (index_string_spec _ _ _ _ _ Hin Hw).
    destruct (append_spec n0 h words out (mkWord (process w) (Z.of_nat i))
                Hown Hn0)
      as (words1 & h1 & -> & Hown1 & _ & Hle1 & Hfr1 & Hroom1 & Hgrow1).
    assert (len words1 = (len words + 1)%nat) as Hlen1.
    { destruct Hown as (Hl & _). destruct Hown1 as (Hl1 & _).
      rewrite length_app in Hl1. simpl in Hl1. lia. }
    destruct (IH (S i) words1 h1 _ (strings_in_frame _ _ _ _ Hin Hfr1)
                ltac:(lia) Hown1 ltac:(lia))
      as (words' & h' & -> & Hcap' & Hh').
    exists words', h'. split; [done|]. rewrite Hlen1 in Hcap', Hh'.
    case_decide as Hfull.
    + destruct Hgrow1 as (Hh1 & Hc1); [lia|]. rewrite Hc1 in Hcap', Hh'.
      destruct (appends growcap (len words + 1)
                  (growcap (cap words) (len words + 1)) n).
      simpl in *. split; [done|lia].
    + destruct Hroom1 as (Hh1 & _ & Hc1); [lia|]. rewrite Hc1 in Hcap', Hh'.
      split; [done|lia].
Qed.

(** [ProcessWords] against [appends] from the empty slice. *)
Lemma ProcessWords_appends h rawWords input :
  strings_in h rawWords = Some input →
  ∃ words h',
    ProcessWords rawWords h = Some (words, h') ∧
    cap words = (appends growcap 0 0 (length input)).1 ∧
    allocations (ProcessWords rawWords) h
    = Some (appends growcap 0 0 (length input)).2.
Proof.
  intros Hin. pose proof (strings_in_length _ _ _ Hin) as Hlen.
  destruct (for_range_from_appends rawWords input (length h) (len rawWords)
              0 (Slice zerobase 0 0) h [] Hin)
    as (words & h' & Hloop & Hcap & Hh'); [done|by split_and!|done|].
  simpl in Hcap, Hh'. rewrite <- Hlen in Hcap, Hh'.
  assert (ProcessWords rawWords h = Some (words, h')) as Hrun by done.
  exists words, h'. split_and!; [done|done|].
  unfold allocations. rewrite Hrun. f_equal. lia.
Qed.

(** X5. The capacity of the slice [ProcessWords] returns and the number of
    arrays it allocates are those of the capacity test of [append] run
    once per word from an empty slice: they depend on the growth policy
    and on the number of words only, and there is at most one allocation
    per word. *)
Theorem ProcessWords_allocation_count h rawWords input :
  strings_in h rawWords = Some input →
  ∃ words h',
    ProcessWords rawWords h = Some (words, h') ∧
    cap words = (appends growcap 0 0 (length input)).1 ∧
    allocations (ProcessWords rawWords) h
    = Some (appends growcap 0 0 (length input)).2 ∧
    ((appends growcap 0 0 (length input)).2 ≤ length input)%nat.
Proof.
  intros Hin.
  destruct (ProcessWords_appends h rawWords input Hin)
    as (words & h' & Hrun & Hcap & Hal).
  exists words, h'. split_and!; [done|done|done|apply appends_le].
Qed.

Lemma Transform_spec_app (up : string → string) input1 input2 :
  Transform_spec up (input1 ++ input2)
  = Transform_spec up input1
    ++ (shift_index (length input1) <$> Transform_spec up input2).
Proof.
  unfold Transform_spec. rewrite imap_app. f_equal.
  apply list_eq. intros i. rewrite list_lookup_fmap, !list_lookup_imap.
  destruct (input2 !! i); [|done]. simpl. unfold shift_index. simpl.
  do 2 f_equal. lia.
Qed.

(** X7. The output for a sequence made of two parts is the output for the
    first part followed by the output for the second part with every
    position moved by the length of the first. *)
Theorem output_of_concatenation f h rawWords input1 input2 h1 rawWords1
    h2 rawWords2 :
  f = ProcessWords ∨ f = ProcessWordsFaster →
  strings_in h rawWords = Some (input1 ++ input2) →
  strings_in h1 rawWords1 = Some input1 →
  strings_in h2 rawWords2 = Some input2 →
  ∃ out1 out2,
    output f rawWords1 h1 = Some out1 ∧
    output f rawWords2 h2 = Some out2 ∧
    output f rawWords h = Some (out1 ++ (shift_index (length input1) <$> out2)).
Proof.
  intros Hf Hin Hin1 Hin2.
  exists (Transform_spec process input1), (Transform_spec process input2).
  rewrite <- Transform_spec_app.
  destruct Hf as [-> | ->]; split_and!;
    by (apply output_ProcessWords || apply output_ProcessWordsFaster).
Qed.

End Slices.

(** ** [process] byte by byte and rune by rune *)

Lemma bytes_app a b : bytes (a +:+ b) = bytes a ++ bytes b.
Proof.
  induction a as [|x a IH]; [done|].
  rewrite app_String. unfold bytes in *. simpl. by rewrite IH.
Qed.

Lemma map_bytes_app f a b :
  map_bytes f (a +:+ b) = map_bytes f a +:+ map_bytes f b.
Proof.
  induction a as [|x a IH]; [done|].
  rewrite app_String. simpl. by rewrite IH, app_String.
Qed.

Lemma map_bytes_length f s : String.length (map_bytes f s) = String.length s.
Proof. induction s as [|x s IH]; simpl; [done|]. by rewrite IH. Qed.

Lemma ASCII_app a b : ASCII (a +:+ b) ↔ ASCII a ∧ ASCII b.
Proof. unfold ASCII. rewrite bytes_app. apply Forall_app. Qed.

Lemma ASCII_String c s :
  ASCII (String c s) ↔ byte_val c < utf8.RuneSelf ∧ ASCII s.
Proof. unfold ASCII, bytes. simpl. by rewrite Forall_cons. Qed.

Lemma upper_ASCII_map s : ∀ b, upper_ASCII s b = b +:+ map_bytes upper_byte s.
Proof.
  induction s as [|c s IH]; intros b; simpl.
  - by rewrite app_Empty_r.
  - rewrite IH. unfold strings.WriteByte. rewrite app_assoc_s.
    by rewrite app_String, app_Empty.
Qed.

(** The first loop of [strings.ToUpper] on an ASCII string: it reports
    ASCII, and when it reports no lower-case letter, mapping the bytes
    changes nothing. *)
Lemma scan_ASCII_ASCII s : ∀ hl,
  ASCII s →
  ∃ hl', scan_ASCII s hl = (true, hl') ∧
         (hl' = false → map_bytes upper_byte s = s).
Proof.
  induction s as [|c s IH]; intros hl Hs.
  { by exists hl. }
  apply ASCII_String in Hs as [Hc Hs]. cbn [scan_ASCII].
  rewrite (proj2 (Z.leb_gt utf8.RuneSelf (byte_val c))) by done.
  destruct (IH (hl || ((0x61 <=? byte_val c) && (byte_val c <=? 0x7A))) Hs)
    as (hl' & Hscan & Hsame).
  exists hl'. split; [done|]. intros ->. simpl.
  rewrite Hsame by done. unfold upper_byte.
  destruct ((0x61 <=? byte_val c) && (byte_val c <=? 0x7A)); [|done].
  rewrite orb_true_r in Hscan. by apply scan_ASCII_sticky in Hscan.
Qed.

(** The bytes of an encoding of two bytes or more are all above ASCII. *)
Lemma Decode_multibyte s c w :
  utf8.DecodeRuneInString s = (c, w) → (2 ≤ w)%nat →
  Forall (λ b, 0x80 ≤ byte_val b) (bytes (slice_to s w)).
Proof.
  rewrite Decode_spec. intros Hdec Hw.
  assert (∀ k : nat, (k ≤ 1)%nat → ∀ r, (r, k) ≠ (c, w)) as Hbad
    by (intros k Hk r [= _ ->]; lia).
  unfold decode_spec, cont in Hdec.
  destruct s as [|b0 [|b1 [|b2 [|b3 t]]]]; cbv zeta in Hdec.
  all: repeat match type of Hdec with
         | context [?a =? ?b] => destruct (Z.eqb_spec a b)
         end.
  all: repeat match type of Hdec with
         | context [if ?b then _ else _] => destruct b eqn:?
         end;
       try (by eapply Hbad in Hdec; [|lia]); injection Hdec as <- <-.
  all: repeat match goal with
         | H : (_ && _) = true |- _ => apply andb_true_iff in H as [? ?]
         end.
  all: repeat match goal with
         | H : (_ <? _) = true |- _ => apply Z.ltb_lt in H
         | H : (_ <? _) = false |- _ => apply Z.ltb_ge in H
         | H : (_ <=? _) = true |- _ => apply Z.leb_le in H
         end.
  all: unfold bytes; simpl; repeat constructor; lia.
Qed.

Lemma Fixed_no_lower f t :
  (∀ c, 0 ≤ c < 0x80 → f c = c → ¬ (0x61 ≤ c ≤ 0x7A)) →
  Fixed f t →
  Forall (λ b, ¬ (0x61 ≤ byte_val b ≤ 0x7A)) (bytes t).
Proof.
  intros Hf. induction 1 as [|chunk c t Hne Hdec Hv Hc Ht IH].
  { constructor. }
  rewrite bytes_app. apply Forall_app. split; [|done].
  specialize (Hdec ""). rewrite app_Empty_r in Hdec.
  destruct (Decode_cases _ _ _ Hdec)
    as [(-> & _)|[(b & t' & -> & Hlen & Hb)|(_ & _ & _ & _ & Hw & _)]];
    [done| |].
  - simpl in Hlen. destruct t'; [|done].
    destruct Hb as [->|[-> Hlt]]; [by destruct Hv|].
    pose proof (byte_val_range b).
    unfold bytes. simpl. repeat constructor. apply Hf; [lia|done].
  - pose proof (Decode_multibyte _ _ _ Hdec Hw) as Hall.
    assert (slice_to chunk (String.length chunk) = chunk) as Hsl.
    { rewrite <- (app_Empty_r chunk) at 1. apply slice_to_app. }
    rewrite Hsl in Hall.
    eapply Forall_impl; [done|]. simpl. lia.
Qed.

Lemma Fixed_mono (f g : Z → Z) t :
  (∀ c, f c = c → g c = c) → Fixed f t → Fixed g t.
Proof.
  intros Hfg. induction 1; [constructor|]. econstructor; eauto.
Qed.

Lemma Fixed_valid_UTF8 g t : Fixed g t → valid_UTF8 t.
Proof.
  intros Ht. unfold valid_UTF8, strings.range.
  assert (∀ s i, slice_from s i = t →
    Forall (λ ic, utf8.DecodeRuneInString (slice_from s ic.1)
                  ≠ (utf8.RuneError, 1%nat)) (strings.range_from t i 0))
    as Hgen; [|by apply Hgen, slice_from_0].
  induction Ht as [|chunk c t Hne Hdec Hv Hc Ht IH]; intros s i Hs.
  { constructor. }
  destruct (range_unfold (chunk +:+ t) i c (String.length chunk))
    as (chunk' & t' & Heq & Hlen & Hw & -> & _); [by destruct chunk|done|].
  assert (t' = t) as ->.
  { rewrite <- (slice_from_app chunk t), Heq, <- Hlen. symmetry.
    apply slice_from_app. }
  constructor.
  - simpl. rewrite Hs, Hdec. intros [= -> Hone]. destruct Hv; done.
  - apply IH. by rewrite slice_from_add, Hs, slice_from_app.
Qed.

Section Validity.

Variable f : Z → Z.
Hypothesis f_scalar : ∀ c, scalar c → scalar (f c).

Lemma valid_written c :
  scalar c →
  Fixed (λ r, r) (if f c <? utf8.RuneSelf then String (byte_of (f c)) ""
                  else utf8.EncodeRune (f c)).
Proof.
  intros Hc.
  apply (Fixed_written (λ r, r) (λ r Hr, Hr) (λ r _, eq_refl) (f c)).
  by apply f_scalar.
Qed.

Lemma Map_write_valid rs : ∀ b,
  Forall (λ ic, scalar ic.2) rs → Fixed (λ r, r) b →
  Fixed (λ r, r) (strings.Map_write f b rs).
Proof.
  unfold strings.Map_write.
  induction rs as [|[i c] rs IH]; intros b Hrs Hb; [done|].
  inversion_clear Hrs as [|? ? Hc Hrs']. simpl in Hc. cbn [fold_left].
  apply IH; [done|]. cbn [snd].
  pose proof (scalar_range _ (f_scalar c Hc)) as Hrange.
  rewrite (proj2 (Z.leb_le 0 (f c))) by lia.
  pose proof (valid_written c Hc) as Hw.
  unfold strings.WriteByte, strings.WriteRune.
  destruct (f c <? utf8.RuneSelf); by apply Fixed_app.
Qed.

Lemma Map_result_valid s : Fixed (λ r, r) (strings.Map f s).
Proof.
  unfold strings.Map, strings.range.
  pose proof (Map_scan_inv f s (String.length s) s 0 ltac:(lia)
                (slice_from_0 s)) as Hinv.
  destruct (strings.Map_scan f s (strings.range_from s 0 0))
    as [[[j r] width]|]; [|by eapply Fixed_mono].
  destruct Hinv as (k & c & -> & Hfix & -> & Hc).
  apply Map_write_valid; [eapply range_scalar; done|].
  pose proof (scalar_range _ (f_scalar c Hc)) as Hrange.
  rewrite (proj2 (Z.leb_le 0 (f c))) by lia.
  unfold strings.WriteString, strings.WriteRune. rewrite app_Empty.
  simpl. pose proof (valid_written c Hc) as Hw.
  apply (Fixed_mono f (λ r, r)) in Hfix; [|done].
  destruct (f c <? utf8.RuneSelf); by apply Fixed_app.
Qed.

End Validity.

Lemma range_from_runes t : ∀ i j sk,
  (strings.range_from t i sk).*2 = (strings.range_from t j sk).*2.
Proof.
  induction t as [|b t IH]; intros i j sk; [done|]. cbn [strings.range_from].
  destruct sk as [|sk]; [|apply IH].
  destruct (utf8.DecodeRuneInString (String b t)) as [c w].
  cbn [fmap list_fmap snd]. f_equal. apply IH.
Qed.

(** The runes of a string that starts with a complete encoding. *)
Lemma runes_chunk chunk c t :
  chunk ≠ "" →
  utf8.DecodeRuneInString (chunk +:+ t) = (c, String.length chunk) →
  runes (chunk +:+ t) = c :: runes t.
Proof.
  intros Hne Hdec. unfold runes, strings.range.
  destruct (range_unfold (chunk +:+ t) 0 c (String.length chunk))
    as (chunk' & t' & Heq & Hlen & Hw & -> & _); [by destruct chunk|done|].
  assert (t' = t) as ->.
  { rewrite <- (slice_from_app chunk t), Heq, <- Hlen. symmetry.
    apply slice_from_app. }
  cbn [fmap list_fmap snd]. f_equal. apply range_from_runes.
Qed.

Lemma runes_Fixed_app g a b : Fixed g a → runes (a +:+ b) = runes a ++ runes b.
Proof.
  induction 1 as [|chunk c t Hne Hdec Hv Hc Ht IH]; [done|].
  rewrite app_assoc_s, (runes_chunk chunk c), (runes_chunk chunk c) by done.
  by rewrite IH.
Qed.

Lemma runes_Fixed f a : Fixed f a → f <$> runes a = runes a.
Proof.
  induction 1 as [|chunk c t Hne Hdec Hv Hc Ht IH]; [done|].
  rewrite (runes_chunk chunk c) by done. by rewrite fmap_cons, Hc, IH.
Qed.

(** Where the first loop of [Map] stops: after a fixed prefix, at a rune
    whose bytes are the next [width] bytes. *)
Lemma Map_scan_split f s n : ∀ t i,
  (String.length t ≤ n)%nat → slice_from s i = t →
  match strings.Map_scan f s (strings.range_from t i 0) with
  | None => Fixed f t
  | Some (j, r, width) =>
      ∃ prefix chunk rest c,
        t = prefix +:+ (chunk +:+ rest) ∧
        j = (i + String.length prefix)%nat ∧ Fixed f prefix ∧
        chunk ≠ "" ∧
        utf8.DecodeRuneInString (chunk +:+ rest) = (c, String.length chunk) ∧
        width = Z.of_nat (String.length chunk) ∧ r = f c ∧ scalar c
  end.
Proof.
  induction n as [|n IH]; intros t i Hn Hs.
  { destruct t; [constructor|simpl in Hn; lia]. }
  destruct t as [|b t0]; [constructor|].
  destruct (utf8.DecodeRuneInString (String b t0)) as [c w] eqn:Hdec.
  destruct (range_unfold (String b t0) i c w)
    as (chunk & t & Heq & Hlen & Hw & -> & Hsc & Hloc); [done..|].
  rewrite Heq in *. clear Heq b t0. rewrite length_app_s in Hn.
  assert (chunk ≠ "") as Hne by (destruct chunk; [simpl in *; lia|done]).
  specialize (IH t (i + w)%nat ltac:(lia)
                ltac:(by rewrite slice_from_add, Hs, <- Hlen, slice_from_app)).
  assert (f c = c → c ≠ utf8.RuneError ∨ w ≠ 1%nat →
    match strings.Map_scan f s (strings.range_from t (i + w) 0) with
    | None => Fixed f (chunk +:+ t)
    | Some (j, r, width) =>
        ∃ prefix chunk0 rest c0,
          chunk +:+ t = prefix +:+ (chunk0 +:+ rest) ∧
          j = (i + String.length prefix)%nat ∧ Fixed f prefix ∧
          chunk0 ≠ "" ∧
          utf8.DecodeRuneInString (chunk0 +:+ rest)
          = (c0, String.length chunk0) ∧
          width = Z.of_nat (String.length chunk0) ∧ r = f c0 ∧ scalar c0
    end) as Hcont.
  { intros Hf Hv. subst w.
    destruct (strings.Map_scan f s
                (strings.range_from t (i + String.length chunk) 0))
      as [[[j r] width]|].
    - destruct IH as (prefix & chunk0 & rest & c0 & -> & -> & Hfix & Hrest).
      exists (chunk +:+ prefix), chunk0, rest, c0.
      destruct Hrest as (? & ? & ? & ? & ?).
      split_and!; try done;
        [by rewrite app_assoc_s|rewrite length_app_s; lia|].
      econstructor; eauto.
    - econstructor; eauto. }
  assert (∀ width, width = Z.of_nat w →
    ∃ prefix chunk0 rest c0,
      chunk +:+ t = prefix +:+ (chunk0 +:+ rest) ∧
      i = (i + String.length prefix)%nat ∧ Fixed f prefix ∧
      chunk0 ≠ "" ∧
      utf8.DecodeRuneInString (chunk0 +:+ rest) = (c0, String.length chunk0) ∧
      width = Z.of_nat (String.length chunk0) ∧ f c = f c0 ∧ scalar c0)
    as Hstop.
  { intros width ->. exists "", chunk, t, c. subst w.
    split_and!; try done; try constructor; simpl; lia. }
  cbn [strings.Map_scan].
  destruct (Z.eqb_spec (f c) c) as [Hf|Hf];
    destruct (Z.eqb_spec c utf8.RuneError) as [Hc|Hc]; cbn [negb andb].
  - rewrite Hs, Hdec.
    destruct (Nat.eqb_spec w 1) as [Hw1|Hw1]; cbn [negb andb].
    + by apply Hstop.
    + rewrite (proj2 (Z.eqb_eq (f c) c)) by done. apply Hcont; auto.
  - apply Hcont; auto.
  - rewrite Hs, Hdec. rewrite (proj2 (Z.eqb_neq (f c) c)) by done.
    rewrite andb_false_r. by apply Hstop.
  - apply Hstop. by eapply Decode_RuneLen.
Qed.

Section Runes.

Variable f : Z → Z.
Hypothesis f_scalar : ∀ c, scalar c → scalar (f c).

Lemma runes_written c :
  scalar c →
  runes (if f c <? utf8.RuneSelf then String (byte_of (f c)) ""
         else utf8.EncodeRune (f c)) = [f c].
Proof.
  intros Hc. pose proof (f_scalar c Hc) as Hr.
  pose proof (scalar_range _ Hr) as Hrange. unfold utf8.RuneSelf.
  destruct (Z.ltb_spec (f c) 0x80).
  - rewrite <- (app_Empty_r (String _ _)).
    rewrite (runes_chunk _ (f c)); [done|done|].
    rewrite app_String, app_Empty.
    rewrite <- (byte_val_small (f c)) at 2 by lia.
    apply Decode_ASCII. rewrite byte_val_small; lia.
  - rewrite <- (app_Empty_r (utf8.EncodeRune _)).
    rewrite (runes_chunk _ (f c)); [done| |by apply Decode_Encode].
    pose proof (EncodeRune_length _ Hr ltac:(lia)).
    destruct (utf8.EncodeRune (f c)); [simpl in *; lia|done].
Qed.

Lemma runes_Map_write rs : ∀ b,
  Forall (λ ic, scalar ic.2) rs → Fixed (λ r, r) b →
  runes (strings.Map_write f b rs) = runes b ++ (f <$> rs.*2).
Proof.
  unfold strings.Map_write.
  induction rs as [|[i c] rs IH]; intros b Hrs Hb.
  { simpl. by rewrite app_nil_r. }
  inversion_clear Hrs as [|? ? Hc Hrs']. simpl in Hc. cbn [fold_left].
  cbn [snd].
  pose proof (scalar_range _ (f_scalar c Hc)) as Hrange.
  rewrite (proj2 (Z.leb_le 0 (f c))) by lia.
  pose proof (valid_written f f_scalar c Hc) as Hw.
  pose proof (runes_written c Hc) as Hrw.
  unfold strings.WriteByte, strings.WriteRune.
  destruct (f c <? utf8.RuneSelf).
  all: rewrite IH by (done || by apply Fixed_app).
  all: rewrite (runes_Fixed_app (λ r, r)), Hrw by done.
  all: by rewrite <- app_assoc.
Qed.

(** [Map] maps rune by rune. *)
Lemma runes_Map s : runes (strings.Map f s) = f <$> runes s.
Proof.
  unfold strings.Map. fold (runes s).
  pose proof (Map_scan_split f s (String.length s) s 0 ltac:(lia)
                (slice_from_0 s)) as Hinv.
  fold (strings.range s) in Hinv.
  destruct (strings.Map_scan f s (strings.range s)) as [[[j r] width]|].
  2: { symmetry. by apply runes_Fixed. }
  destruct Hinv as (prefix & chunk & rest & c & Hs & -> & Hfix & Hne & Hdec
                    & -> & -> & Hc).
  pose proof (scalar_range _ (f_scalar c Hc)) as Hrange.
  rewrite (proj2 (Z.leb_le 0 (f c))) by lia.
  assert (slice_to s (0 + String.length prefix) = prefix) as ->.
  { rewrite Hs. simpl. apply slice_to_app. }
  assert (slice_from s (Z.to_nat
            (Z.of_nat (0 + String.length prefix)
             + Z.of_nat (String.length chunk))) = rest) as ->.
  { replace (Z.to_nat _) with (String.length prefix + String.length chunk)%nat
      by lia.
    by rewrite Hs, slice_from_add, !slice_from_app. }
  unfold strings.WriteString, strings.WriteRune. rewrite app_Empty.
  pose proof (valid_written f f_scalar c Hc) as Hw.
  pose proof (runes_written c Hc) as Hrw.
  apply (Fixed_mono f (λ r, r)) in Hfix as Hval; [|done].
  fold (runes rest).
  assert (runes s = runes prefix ++ c :: runes rest) as ->.
  { by rewrite Hs, (runes_Fixed_app f), (runes_chunk chunk c). }
  rewrite fmap_app, fmap_cons, (runes_Fixed f prefix) by done.
  destruct (f c <? utf8.RuneSelf).
  all: rewrite runes_Map_write;
    [|eapply range_scalar; done|by apply Fixed_app].
  all: rewrite (runes_Fixed_app (λ r, r)), Hrw by done.
  all: by rewrite <- app_assoc.
Qed.

End Runes.

Lemma scan_ASCII_true s : ∀ hl hl', scan_ASCII s hl = (true, hl') → ASCII s.
Proof.
  induction s as [|c s IH]; intros hl hl' Hs; [constructor|].
  cbn [scan_ASCII] in Hs. apply ASCII_String.
  destruct (Z.leb_spec utf8.RuneSelf (byte_val c)); [congruence|].
  split; [done|]. by eapply IH.
Qed.

Lemma runes_ASCII s : ASCII s → runes s = byte_val <$> bytes s.
Proof.
  induction s as [|c s IH]; intros Hs; [done|].
  apply ASCII_String in Hs as [Hc Hs].
  change (String c s) with (String c "" +:+ s) at 1.
  rewrite (runes_chunk (String c "") (byte_val c)); [|done|].
  - change (bytes (String c s)) with (c :: bytes s).
    by rewrite fmap_cons, IH.
  - by apply Decode_ASCII.
Qed.

Section ProcessFacts.

Variable To_UpperCase : Z → Z.

Local Abbreviation unicode_ToUpper := (unicode_ToUpper To_UpperCase).
Local Abbreviation strings_ToUpper := (strings_ToUpper To_UpperCase).
Local Abbreviation process := (process To_UpperCase).

Lemma strings_ToUpper_ASCII s :
  ASCII s → strings_ToUpper s = map_bytes upper_byte s.
Proof.
  intros Hs. unfold strings_ToUpper.
  destruct (scan_ASCII_ASCII s false Hs) as (hl' & -> & Hsame).
  destruct hl'; cbn [negb].
  - by rewrite upper_ASCII_map, app_Empty.
  - by rewrite Hsame.
Qed.

(** X8. On a word made of ASCII bytes [process] works byte by byte: each
    letter ['a'] to ['z'] becomes the letter ['A'] to ['Z'], every other
    byte stays, and the length is kept. *)
Theorem process_ASCII s :
  ASCII s →
  process s = map_bytes upper_byte s ∧
  String.length (process s) = String.length s.
Proof.
  intros Hs. unfold process.
  rewrite strings_ToUpper_ASCII by done.
  split; [done|]. apply map_bytes_length.
Qed.

(** X9. On ASCII words [process] goes through concatenation. *)
Theorem process_ASCII_app a b :
  ASCII a → ASCII b → process (a +:+ b) = process a +:+ process b.
Proof.
  intros Ha Hb. unfold process.
  rewrite !strings_ToUpper_ASCII by (done || by apply ASCII_app).
  apply map_bytes_app.
Qed.

Lemma upper_byte_val c :
  byte_val c < utf8.RuneSelf →
  byte_val (upper_byte c) = unicode_ToUpper (byte_val c) ∧
  byte_val (upper_byte c) < utf8.RuneSelf.
Proof.
  unfold upper_byte, unicode_ToUpper, MaxASCII, utf8.RuneSelf.
  intros Hc. pose proof (byte_val_range c).
  rewrite (proj2 (Z.leb_le (byte_val c) 0x7F)) by lia.
  destruct ((0x61 <=? byte_val c) && (byte_val c <=? 0x7A)) eqn:Hl; [|done].
  apply andb_true_iff in Hl as [?%Z.leb_le ?%Z.leb_le].
  rewrite byte_val_small by lia. lia.
Qed.

Lemma runes_map_upper s :
  ASCII s →
  ASCII (map_bytes upper_byte s) ∧
  byte_val <$> bytes (map_bytes upper_byte s)
  = unicode_ToUpper <$> (byte_val <$> bytes s).
Proof.
  induction s as [|c s IH]; intros Hs; [by split; [constructor|]|].
  apply ASCII_String in Hs as [Hc Hs]. destruct (IH Hs) as [IH1 IH2].
  destruct (upper_byte_val c Hc) as [Hv Hsmall].
  cbn [map_bytes]. split; [by apply ASCII_String|].
  change (bytes (String ?b ?t)) with (b :: bytes t).
  by rewrite !fmap_cons, Hv, IH2.
Qed.

Hypothesis To_UpperCase_scalar :
  ∀ r, scalar r → MaxASCII < r → scalar (To_UpperCase r).

(** X11. Whatever bytes the word holds, the result of [process] is valid
    UTF-8: ranging over it meets no invalid byte (those of the word have
    become U+FFFD). *)
Theorem process_valid_UTF8 x : valid_UTF8 (process x).
Proof.
  apply (Fixed_valid_UTF8 (λ r, r)). unfold process, strings_ToUpper.
  destruct (scan_ASCII x false) as [[] []] eqn:Hs; cbn [negb].
  - apply (Fixed_mono unicode_ToUpper); [done|].
    eapply upper_ASCII_Fixed; [done|constructor].
  - apply (Fixed_mono unicode_ToUpper); [done|]. by apply scan_ASCII_Fixed.
  - apply Map_result_valid. by apply unicode_ToUpper_scalar.
  - apply Map_result_valid. by apply unicode_ToUpper_scalar.
Qed.

(** X12. [process] works rune by rune: the runes of the result are the
    upper-case mappings of the runes of the word, in the same order. *)
Theorem process_runes x : runes (process x) = unicode_ToUpper <$> runes x.
Proof.
  unfold process.
  destruct (scan_ASCII x false) as [[] hl] eqn:Hscan.
  - apply scan_ASCII_true in Hscan as Hx.
    rewrite (strings_ToUpper_ASCII x Hx).
    destruct (runes_map_upper x Hx) as [Hup Hmap].
    by rewrite !runes_ASCII, Hmap.
  - unfold strings_ToUpper. rewrite Hscan.
    apply runes_Map. by apply unicode_ToUpper_scalar.
Qed.

Hypothesis To_UpperCase_upper :
  ∀ r, scalar r → MaxASCII < r →
    unicode_ToUpper (To_UpperCase r) = To_UpperCase r.

(** X10. The result of [process] holds no ASCII lower-case letter. *)
Theorem process_no_lower x :
  Forall (λ b, ¬ (0x61 ≤ byte_val b ≤ 0x7A)) (bytes (process x)).
Proof.
  apply (Fixed_no_lower unicode_ToUpper).
  - intros c Hc Hfix Hlow.
    pose proof (unicode_ToUpper_ASCII To_UpperCase c
                  ltac:(unfold MaxASCII; lia)) as (_ & Hup & _).
    rewrite Hfix in Hup. done.
  - by apply strings_ToUpper_result.
Qed.

End ProcessFacts.

(** ** The instances *)

Lemma latin1_scalar r :
  scalar r → MaxASCII < r → scalar (latin1_To_UpperCase r).
Proof.
  intros Hr%scalar_range Hlo. unfold MaxASCII in Hlo.
  apply scalar_intro; unfold latin1_To_UpperCase; zsplit; cbn [andb negb]; lia.
Qed.

Lemma latin1_upper r :
  scalar r → MaxASCII < r →
  unicode_ToUpper latin1_To_UpperCase (latin1_To_UpperCase r)
  = latin1_To_UpperCase r.
Proof.
  intros Hr%scalar_range Hlo. unfold MaxASCII in Hlo.
  unfold latin1_To_UpperCase at 2 3.
  zsplit; cbn [andb negb]; unfold unicode_ToUpper, MaxASCII, latin1_To_UpperCase;
    zsplit; cbn [andb negb]; lia.
Qed.

Lemma doublecap_fits oldCap newLen : (newLen ≤ doublecap oldCap newLen)%nat.
Proof. unfold doublecap. case_decide; lia. Qed.





Lemma whale_words_in :
  strings_in whale_heap whale_words = Some ["the"; "Whale"; "IS"; "big"].
Proof. reflexivity. Qed.

Lemma a_words_in : strings_in whale_heap a_words = Some ["a"].
Proof. reflexivity. Qed.

Lemma a_empty_words_in : strings_in whale_heap a_empty_words = Some ["a"; ""].
Proof. reflexivity. Qed.

(** ** Runs on the instances *)

Example ProcessWords_whale_allocations :
  allocations (ProcessWords latin1_To_UpperCase doublecap whale_words) whale_heap
  = Some 3%nat.
Proof. reflexivity. Qed.

Example ProcessWordsFaster_whale_allocations :
  allocations (ProcessWordsFaster latin1_To_UpperCase doublecap whale_words)
    whale_heap
  = Some 1%nat.
Proof. reflexivity. Qed.

Example ProcessWords_whale_run :
  ProcessWords latin1_To_UpperCase doublecap a_empty_words whale_heap
  = Some (Slice (element 2 0) 2 2,
          whale_heap ++
          [WordArray [mkWord "A" 0];
           WordArray [mkWord "A" 0; mkWord "" 1]]).
Proof. reflexivity. Qed.

Example ProcessWordsFaster_whale_run :
  ProcessWordsFaster latin1_To_UpperCase doublecap a_empty_words whale_heap
  = Some (Slice (element 1 0) 2 2,
          whale_heap ++ [WordArray [mkWord "A" 0; mkWord "" 1]]).
Proof. reflexivity. Qed.

(** An invalid byte comes out as the encoding of [RuneError]. *)
Example process_invalid_byte :
  process latin1_To_UpperCase (String (byte_of 0xFF) "a")
  = String (byte_of 0xEF) (String (byte_of 0xBF) (String (byte_of 0xBD) "A")).
Proof. reflexivity. Qed.

Example process_latin1 :
  process latin1_To_UpperCase "straße, señor ÿ" = "STRAßE, SEÑOR Ÿ".
Proof. reflexivity. Qed.

Lemma ProcessWordsFaster_same_output_witness :
  ∃ out,
    output (ProcessWords latin1_To_UpperCase doublecap) whale_words whale_heap
    = Some out ∧
    output (ProcessWordsFaster latin1_To_UpperCase doublecap) whale_words
      whale_heap
    = Some out.
Proof.
  apply (ProcessWordsFaster_same_output latin1_To_UpperCase doublecap
           doublecap_fits whale_heap whale_words
           ["the"; "Whale"; "IS"; "big"]).
  reflexivity.
Defined.


Lemma output_length_witness :
  (∃ words h' out,
     ProcessWords latin1_To_UpperCase doublecap whale_words whale_heap
     = Some (words, h') ∧
     Words_in h' words = Some out ∧
     len words = 4%nat ∧ length out = 4%nat ∧
     (["the"; "Whale"; "IS"; "big"] = [] → out = [])) ∧
  (∃ words h' out,
     ProcessWordsFaster latin1_To_UpperCase doublecap whale_words whale_heap
     = Some (words, h') ∧
     Words_in h' words = Some out ∧
     len words = 4%nat ∧ length out = 4%nat ∧
     (["the"; "Whale"; "IS"; "big"] = [] → out = [])).
Proof.
  apply (output_length latin1_To_UpperCase doublecap doublecap_fits
           whale_heap whale_words ["the"; "Whale"; "IS"; "big"]).
  reflexivity.
Defined.

Lemma output_positions_witness :
  ∃ out,
    output (ProcessWords latin1_To_UpperCase doublecap) whale_words whale_heap
    = Some out ∧
    output (ProcessWordsFaster latin1_To_UpperCase doublecap) whale_words
      whale_heap
    = Some out ∧
    index <$> out = [0; 1; 2; 3] ∧
    word <$> out
    = process latin1_To_UpperCase <$> ["the"; "Whale"; "IS"; "big"] ∧
    NoDup (index <$> out) ∧
    (∀ i j ri rj, out !! i = Some ri → out !! j = Some rj →
       (i < j)%nat → index ri < index rj).
Proof.
  apply (output_positions latin1_To_UpperCase doublecap doublecap_fits
           whale_heap whale_words ["the"; "Whale"; "IS"; "big"]).
  reflexivity.
Defined.

Lemma transforms_never_fail_witness :
  (∀ s i r width,
     strings.Map_scan (unicode_ToUpper latin1_To_UpperCase) s (strings.range s)
     = Some (i, r, width) →
     0 < width ∧ (i + Z.to_nat width ≤ String.length s)%nat) ∧
  (∃ words h' out,
     ProcessWords latin1_To_UpperCase doublecap a_empty_words whale_heap
     = Some (words, h') ∧
     Words_in h' words = Some out ∧
     Forall2 (λ w r, word r = process latin1_To_UpperCase w) ["a"; ""] out) ∧
  (∃ words h' out,
     ProcessWordsFaster latin1_To_UpperCase doublecap a_empty_words whale_heap
     = Some (words, h') ∧
     Words_in h' words = Some out ∧
     Forall2 (λ w r, word r = process latin1_To_UpperCase w) ["a"; ""] out).
Proof.
  apply (transforms_never_fail latin1_To_UpperCase doublecap doublecap_fits
           whale_heap a_empty_words ["a"; ""]).
  reflexivity.
Defined.

Lemma input_unchanged_witness :
  (∃ words h' new,
     ProcessWords latin1_To_UpperCase doublecap whale_words whale_heap
     = Some (words, h') ∧
     strings_in h' whale_words = Some ["the"; "Whale"; "IS"; "big"] ∧
     h' = whale_heap ++ new ∧
     ∀ l, (l < length whale_heap)%nat → h' !! l = whale_heap !! l) ∧
  (∃ words h' new,
     ProcessWordsFaster latin1_To_UpperCase doublecap whale_words whale_heap
     = Some (words, h') ∧
     strings_in h' whale_words = Some ["the"; "Whale"; "IS"; "big"] ∧
     h' = whale_heap ++ new ∧
     ∀ l, (l < length whale_heap)%nat → h' !! l = whale_heap !! l).
Proof.
  apply (input_unchanged latin1_To_UpperCase doublecap doublecap_fits
           whale_heap whale_words ["the"; "Whale"; "IS"; "big"]).
  reflexivity.
Defined.

Lemma ProcessWordsFaster_one_allocation_witness :
  (∃ words0 h0 words h',
     make_Word 0 (len whale_words) whale_heap = Some (words0, h0) ∧
     len words0 = 0%nat ∧ cap words0 = 4%nat ∧
     length h0 = S (length whale_heap) ∧
     for_range whale_words
       (λ i w words,
          append doublecap words
            (mkWord (process latin1_To_UpperCase w) (Z.of_nat i)))
       words0 h0 = Some (words, h') ∧
     length h' = length h0 ∧ data words = data words0 ∧
     cap words = cap words0 ∧
     ProcessWordsFaster latin1_To_UpperCase doublecap whale_words whale_heap
     = Some (words, h')) ∧
  allocations (ProcessWordsFaster latin1_To_UpperCase doublecap whale_words)
    whale_heap = Some 1%nat ∧
  (∃ n,
     allocations (ProcessWords latin1_To_UpperCase doublecap whale_words)
       whale_heap = Some n ∧
     (1 ≤ n)%nat ∧ ((doublecap 0 1 < 4)%nat → (2 ≤ n)%nat)).
Proof.
  apply (ProcessWordsFaster_one_allocation latin1_To_UpperCase doublecap
           doublecap_fits whale_heap whale_words
           ["the"; "Whale"; "IS"; "big"]).
  - reflexivity.
  - discriminate.
Defined.


Lemma whale_scenario_witness :
  output (ProcessWords latin1_To_UpperCase doublecap) whale_words whale_heap
  = Some [mkWord "THE" 0; mkWord "WHALE" 1; mkWord "IS" 2; mkWord "BIG" 3] ∧
  output (ProcessWordsFaster latin1_To_UpperCase doublecap) whale_words
    whale_heap
  = Some [mkWord "THE" 0; mkWord "WHALE" 1; mkWord "IS" 2; mkWord "BIG" 3] ∧
  output (ProcessWords latin1_To_UpperCase doublecap) a_words whale_heap
  = Some [mkWord "A" 0] ∧
  output (ProcessWordsFaster latin1_To_UpperCase doublecap) a_words whale_heap
  = Some [mkWord "A" 0].
Proof.
  apply (whale_scenario latin1_To_UpperCase doublecap doublecap_fits
           whale_heap whale_words whale_heap a_words); reflexivity.
Defined.

Lemma element_depends_on_own_input_witness :
  ∃ r,
    (output (ProcessWords latin1_To_UpperCase doublecap) a_empty_words
       whale_heap ≫= (.!! 1%nat)) = Some r ∧
    (output (ProcessWords latin1_To_UpperCase doublecap) whale_empty_words
       whale_heap ≫= (.!! 1%nat)) = Some r ∧
    (output (ProcessWordsFaster latin1_To_UpperCase doublecap) a_empty_words
       whale_heap ≫= (.!! 1%nat)) = Some r ∧
    (output (ProcessWordsFaster latin1_To_UpperCase doublecap)
       whale_empty_words whale_heap ≫= (.!! 1%nat)) = Some r ∧
    r = mkWord (process latin1_To_UpperCase "") 1 ∧
    ("" = "" → r = mkWord "" 1).
Proof.
  apply (element_depends_on_own_input latin1_To_UpperCase doublecap
           doublecap_fits whale_heap a_empty_words ["a"; ""] whale_heap
           whale_empty_words ["whale"; ""] 1%nat ""); reflexivity.
Defined.

Lemma empty_input_allocates_nothing_witness :
  ProcessWords latin1_To_UpperCase doublecap no_words whale_heap
  = Some (Slice zerobase 0 0, whale_heap) ∧
  ProcessWordsFaster latin1_To_UpperCase doublecap no_words whale_heap
  = Some (Slice zerobase 0 0, whale_heap).
Proof.
  apply (empty_input_allocates_nothing latin1_To_UpperCase doublecap
           whale_heap no_words).
  reflexivity.
Defined.

Lemma ProcessWordsFaster_result_witness :
  ProcessWordsFaster latin1_To_UpperCase doublecap whale_words whale_heap
  = Some (Slice (element (length whale_heap) 0)
            (length ["the"; "Whale"; "IS"; "big"])
            (length ["the"; "Whale"; "IS"; "big"]),
          whale_heap
          ++ [WordArray (Transform_spec (process latin1_To_UpperCase)
                           ["the"; "Whale"; "IS"; "big"])]).
Proof.
  apply (ProcessWordsFaster_result latin1_To_UpperCase doublecap
           doublecap_fits whale_heap whale_words
           ["the"; "Whale"; "IS"; "big"]).
  - reflexivity.
  - discriminate.
Defined.

Lemma output_array_is_fresh_witness :
  (∃ words h' l a,
     ProcessWords latin1_To_UpperCase doublecap whale_words whale_heap
     = Some (words, h') ∧
     data words = element l 0 ∧ whale_heap !! l = None ∧
     h' !! l = Some (WordArray a) ∧ length a = cap words ∧
     take (len words) a
     = Transform_spec (process latin1_To_UpperCase)
         ["the"; "Whale"; "IS"; "big"]) ∧
  (∃ words h' l a,
     ProcessWordsFaster latin1_To_UpperCase doublecap whale_words whale_heap
     = Some (words, h') ∧
     data words = element l 0 ∧ whale_heap !! l = None ∧
     h' !! l = Some (WordArray a) ∧ length a = cap words ∧
     take (len words) a
     = Transform_spec (process latin1_To_UpperCase)
         ["the"; "Whale"; "IS"; "big"]).
Proof.
  apply (output_array_is_fresh latin1_To_UpperCase doublecap doublecap_fits
           whale_heap whale_words ["the"; "Whale"; "IS"; "big"]).
  - reflexivity.
  - discriminate.
Defined.

Lemma calls_do_not_interfere_witness :
  ∃ words1 h1 words2 h2,
    ProcessWords latin1_To_UpperCase doublecap whale_words whale_heap
    = Some (words1, h1) ∧
    ProcessWordsFaster latin1_To_UpperCase doublecap a_empty_words h1
    = Some (words2, h2) ∧
    Words_in h2 words1
    = Some (Transform_spec (process latin1_To_UpperCase)
              ["the"; "Whale"; "IS"; "big"]) ∧
    Words_in h2 words2
    = Some (Transform_spec (process latin1_To_UpperCase) ["a"; ""]) ∧
    strings_in h2 whale_words = Some ["the"; "Whale"; "IS"; "big"] ∧
    strings_in h2 a_empty_words = Some ["a"; ""].
Proof.
  apply (calls_do_not_interfere latin1_To_UpperCase doublecap doublecap_fits
           (ProcessWords latin1_To_UpperCase doublecap)
           (ProcessWordsFaster latin1_To_UpperCase doublecap)
           whale_heap whale_words ["the"; "Whale"; "IS"; "big"]
           a_empty_words ["a"; ""]).
  - left. reflexivity.
  - right. reflexivity.
  - reflexivity.
  - reflexivity.
Defined.

Lemma ProcessWords_allocation_count_witness :
  ∃ words h',
    ProcessWords latin1_To_UpperCase doublecap whale_words whale_heap
    = Some (words, h') ∧
    cap words
    = (appends doublecap 0 0 (length ["the"; "Whale"; "IS"; "big"])).1 ∧
    allocations (ProcessWords latin1_To_UpperCase doublecap whale_words)
      whale_heap
    = Some (appends doublecap 0 0 (length ["the"; "Whale"; "IS"; "big"])).2 ∧
    ((appends doublecap 0 0 (length ["the"; "Whale"; "IS"; "big"])).2
     ≤ length ["the"; "Whale"; "IS"; "big"])%nat.
Proof.
  apply (ProcessWords_allocation_count latin1_To_UpperCase doublecap
           doublecap_fits whale_heap whale_words
           ["the"; "Whale"; "IS"; "big"]).
  reflexivity.
Defined.


Lemma output_of_concatenation_witness :
  ∃ out1 out2,
    output (ProcessWords latin1_To_UpperCase doublecap) the_whale_words
      whale_heap = Some out1 ∧
    output (ProcessWords latin1_To_UpperCase doublecap) is_big_words
      whale_heap = Some out2 ∧
    output (ProcessWords latin1_To_UpperCase doublecap) whale_words
      whale_heap
    = Some (out1 ++ (shift_index (length ["the"; "Whale"]) <$> out2)).
Proof.
  apply (output_of_concatenation latin1_To_UpperCase doublecap
           doublecap_fits (ProcessWords latin1_To_UpperCase doublecap)
           whale_heap whale_words ["the"; "Whale"] ["IS"; "big"]
           whale_heap the_whale_words whale_heap is_big_words).
  - left. reflexivity.
  - reflexivity.
  - reflexivity.
  - reflexivity.
Defined.

Lemma process_ASCII_witness :
  process latin1_To_UpperCase "Whale" = map_bytes upper_byte "Whale" ∧
  String.length (process latin1_To_UpperCase "Whale") = String.length "Whale".
Proof.
  apply (process_ASCII latin1_To_UpperCase "Whale").
  unfold ASCII. simpl. repeat constructor.
Defined.

Lemma process_ASCII_app_witness :
  process latin1_To_UpperCase ("Moby" +:+ "Whale")
  = process latin1_To_UpperCase "Moby" +:+ process latin1_To_UpperCase "Whale".
Proof.
  apply (process_ASCII_app latin1_To_UpperCase "Moby" "Whale").
  - unfold ASCII. simpl. repeat constructor.
  - unfold ASCII. simpl. repeat constructor.
Defined.

Lemma process_no_lower_witness :
  Forall (λ b, ¬ (0x61 ≤ byte_val b ≤ 0x7A))
    (bytes (process latin1_To_UpperCase "straße, señor ÿ")).
Proof.
  apply (process_no_lower latin1_To_UpperCase latin1_scalar latin1_upper).
Defined.

Lemma process_valid_UTF8_witness :
  valid_UTF8 (process latin1_To_UpperCase "straße, señor ÿ").
Proof.
  apply (process_valid_UTF8 latin1_To_UpperCase latin1_scalar).
Defined.

Lemma process_runes_witness :
  runes (process latin1_To_UpperCase "straße, señor ÿ")
  = unicode_ToUpper latin1_To_UpperCase <$> runes "straße, señor ÿ".
Proof.
  apply (process_runes latin1_To_UpperCase latin1_scalar).
Defined.
